(** * flask_wtf_top: field classification, normalisation, uploads and the
      conditional-requirement validator

    A shallow embedding of [src/flask_wtf_top/__init__.py].  Python objects
    are modelled by the data they expose to this module: a field by its
    [name], [type] and [data]; a form by its fields in declaration order
    and by the method-resolution order of its class; an upload by its
    [filename] and a handle on its stream.  Exceptions are the [Raise]
    outcome of a result type; the list objects declared on form classes live
    in a heap, so that mutation and aliasing are visible. *)

From Stdlib Require Import ZArith Ascii String.
From stdpp Require Import base option list strings gmap fin_maps fin_sets sorting.

(** ** Python values and exceptions *)

(** [werkzeug.datastructures.FileStorage]: the uploaded entry.  [stream]
    names the underlying stream; two entries with equal names are still two
    entries when their streams differ. *)
Module FileStorage.
Record t := mk { filename : string; stream : nat }.
End FileStorage.

(** The values a field's [data] can hold.  [VOther] stands for any object
    without string methods (Decimal, float, date, ...); it carries what
    [bool()] answers on it. *)
#[warnings="-register-all"]
Inductive value :=
| VNone
| VBool (b : bool)
| VInt (z : Z)
| VStr (s : string)
| VList (vs : list value)
| VFile (fo : FileStorage.t)
| VDateTime (t : Z)
| VOther (truth : bool) (id : nat).

(** [DanglingRef] is not a Python exception: it is the model's answer to a
    read of a location outside the heap, which no well-formed state does. *)
Inductive exn :=
| AttributeError
| TypeError
| ValidationError (msg : string)
| DanglingRef.

Inductive result (A : Type) :=
| Ok (a : A)
| Raise (e : exn).
Arguments Ok {A} a.
Arguments Raise {A} e.

#[global] Instance result_ret : MRet result := λ A a, Ok a.
#[global] Instance result_bind : MBind result := λ A B k m,
  match m with
  | Ok a => k a
  | Raise e => Raise e
  end.

(** ** Strings

    Python's [str] is modelled by [string]; [strip], [lower] and [upper]
    follow Python on the ASCII range (code points below 128), which is the
    range the examples of this development use. *)

(** [str.isspace] on one character: TAB..CR, FS..US and SPACE. *)
Definition isspace (c : ascii) : bool :=
  let n := nat_of_ascii c in
  ((9 <=? n)%nat && (n <=? 13)%nat) || ((28 <=? n)%nat && (n <=? 32)%nat).

Fixpoint lstrip (s : string) : string :=
  match s with
  | String c s' => if isspace c then lstrip s' else s
  | EmptyString => EmptyString
  end.

Definition rstrip (s : string) : string := String.rev (lstrip (String.rev s)).

Definition strip (s : string) : string := rstrip (lstrip s).

Definition lower_char (c : ascii) : ascii :=
  let n := nat_of_ascii c in
  if (65 <=? n)%nat && (n <=? 90)%nat then ascii_of_nat (n + 32) else c.

Definition upper_char (c : ascii) : ascii :=
  let n := nat_of_ascii c in
  if (97 <=? n)%nat && (n <=? 122)%nat then ascii_of_nat (n - 32) else c.

Fixpoint map_chars (f : ascii → ascii) (s : string) : string :=
  match s with
  | String c s' => String (f c) (map_chars f s')
  | EmptyString => EmptyString
  end.

Definition lower : string → string := map_chars lower_char.
Definition upper : string → string := map_chars upper_char.

(** [s.endswith(suffix)] *)
Definition endswith (s suffix : string) : bool :=
  let n := String.length s in
  let k := String.length suffix in
  (k <=? n)%nat && (substring (n - k) k s =? suffix)%string.

(** Truth value of a string: non-empty. *)
Definition str_truthy (s : string) : bool := negb (s =? "")%string.

(** [bool(v)] *)
Definition truthy (v : value) : bool :=
  match v with
  | VNone => false
  | VBool b => b
  | VInt z => negb (z =? 0)%Z
  | VStr s => str_truthy s
  | VList vs => match vs with [] => false | _ :: _ => true end
  | VFile fo => str_truthy (FileStorage.filename fo)
  | VDateTime _ => true
  | VOther t _ => t
  end.

(** [data.strip() if isinstance(data, str) else data] *)
Definition strip_if_str (v : value) : value :=
  match v with
  | VStr s => VStr (strip s)
  | _ => v
  end.

(** [data.lower()] / [data.upper()] on an arbitrary object: only [str] has
    the method. *)
Definition call_lower (v : value) : result value :=
  match v with
  | VStr s => Ok (VStr (lower s))
  | _ => Raise AttributeError
  end.

Definition call_upper (v : value) : result value :=
  match v with
  | VStr s => Ok (VStr (upper s))
  | _ => Raise AttributeError
  end.

(** ** Fields, classes, forms *)

Module Field.
Record t := mk { name : string; type : string; data : value }.
End Field.

Abbreviation loc := positive.

(** The heap of Python list objects that hold field names. *)
Abbreviation heap := (gmap loc (list string)).

(** A class as [get_attrs] sees it: its [__name__] and its [__dict__], the
    latter split by the type of the attribute: list-valued declarations are
    references to list objects, mapping-valued ones are read-only dicts. *)
Record klass := Klass {
  k_name : string;
  k_lists : gmap string loc;
  k_dicts : gmap string (gmap string string)
}.

(** A form instance: [type(self).__mro__] and the fields that iterating
    over the form yields, in declaration order.  Fields are set as
    attributes of the form under their names (no prefix). *)
Record form := Form {
  mro : list klass;
  fields : list Field.t
}.

(** [getattr(form, attr)] for a field name; any other name has no field
    behind it and the access to its [data] fails. *)
Definition form_getattr (self : form) (attr : string) : result Field.t :=
  match List.find (λ f, (Field.name f =? attr)%string) (fields self) with
  | Some f => Ok f
  | None => Raise AttributeError
  end.

(** ** External collaborators *)

(** What the module imports and calls but does not define:
    [werkzeug.utils.secure_filename]; the lookup [getattr(operator, name,
    None)] together with the call of what it finds; and the call
    [getattr(obj, name)(arg)] of a method of a value. *)
Class Externals := {
  secure_filename : string → string;
  operator_attr : string → option (value → value → result value);
  method_call : value → string → value → result value
}.

(** ** required_if *)

Definition check := (string * string * value)%type.

Section required_if.
Context {ext : Externals}.

(** One turn of the loop over [checks_] (lines 49-60): the new value of
    the counter [logics]. *)
Definition check_step (form_ : form) (field : Field.t)
    (logics : nat) (c : check) : result nat :=
  let '(dep_name, op_, val) := c in
  dep ← form_getattr form_ dep_name;
  let depend_data := Field.data dep in
  let depend_data :=
    match depend_data with
    | VStr s =>
        if negb (Field.type field =? "PasswordField")%string
        then VStr (strip s) else depend_data
    | _ => depend_data
    end in
  if truthy depend_data && str_truthy op_ then
    hit ← match operator_attr op_ with
          | Some func => logic1 ← func depend_data val; mret (truthy logic1)
          | None => logic2 ← method_call depend_data op_ val; mret (truthy logic2)
          end;
    mret (if hit : bool then S logics else logics)
  else mret logics.

Fixpoint check_loop (form_ : form) (field : Field.t)
    (checks_ : list check) (logics : nat) : result nat :=
  match checks_ with
  | [] => mret logics
  | c :: rest =>
      logics' ← check_step form_ field logics c;
      check_loop form_ field rest logics'
  end.

(** [checks or [(depend_name, op, value)]] *)
Definition effective_checks (depend_name op : string) (val : value)
    (checks : list check) : list check :=
  match checks with
  | [] => [(depend_name, op, val)]
  | _ :: _ => checks
  end.

Definition check_field (depend_name op : string) (val : value)
    (checks : list check) (error_msg : string)
    (form_ : form) (field : Field.t) : result unit :=
  let data := strip_if_str (Field.data field) in
  if truthy data then mret tt
  else
    let checks_ := effective_checks depend_name op val checks in
    logics ← check_loop form_ field checks_ 0;
    if (logics =? length checks_)%nat then Raise (ValidationError error_msg)
    else mret tt.

(** The factory returns the closure. *)
Definition required_if (depend_name op : string) (val : value)
    (checks : list check) (error_msg : string)
    : form → Field.t → result unit :=
  check_field depend_name op val checks error_msg.
End required_if.

(** ** Field classifier *)

Definition FILE_FIELDS : gset string := {[ "FileField"; "MultipleFileField" ]}.
Definition NON_VALUE_FIELDS : gset string := {[ "SubmitField" ]} ∪ FILE_FIELDS.
Definition NON_HTML_FIELDS : list string :=
  [ "SubmitField"; "CSRFTokenField"; "HiddenField"; "FormField"; "FieldList" ].

(** The argument [field_types] of [filter_fields]: a bare string or a
    collection of type tags. *)
Inductive field_types :=
| OneType (t : string)
| Types (ts : list string).

Definition filter_fields (self : form) (ftypes : field_types)
    (contains : bool) : list string :=
  let types :=
    match ftypes with
    | OneType t => [t]
    | Types ts => ts
    end in
  if contains
  then Field.name <$> filter (λ fid, Field.type fid ∈ types) (fields self)
  else Field.name <$> filter (λ fid, Field.type fid ∉ types) (fields self).

(** The cached properties: each is computed by one call of
    [filter_fields]; the cache keeps that value. *)
Definition html_fields (self : form) : list string :=
  filter_fields self (Types NON_HTML_FIELDS) false.
Definition select_fields (self : form) : list string :=
  filter_fields self (Types ["SelectField"; "SelectMultipleField"]) true.
Definition radio_fields (self : form) : list string :=
  filter_fields self (OneType "RadioField") true.
Definition boolean_fields (self : form) : list string :=
  filter_fields self (OneType "BooleanField") true.
Definition file_fields (self : form) : list string :=
  filter_fields self (Types ["FileField"; "MultipleFileField"]) true.
Definition date_fields (self : form) : list string :=
  filter_fields self
    (Types ["DateField"; "DateTimeField"; "DateTimeLocalField"]) true.
Definition submit_fields (self : form) : list string :=
  filter_fields self (OneType "SubmitField") true.

(** ** File extractor *)

(** The dict built by [get_file]. *)
Module FileInfo.
Record t := mk {
  file : FileStorage.t;
  filename : string;
  secure_filename : string
}.
End FileInfo.

(** [request.files]: a multi-dict, the submitted (name, entry) pairs in
    submission order. *)
Definition getlist (files : list (string * FileStorage.t)) (name : string)
    : list FileStorage.t :=
  snd <$> filter (λ p, p.1 = name) files.

(** [bool(fo)] is [bool(fo.filename)]. *)
Definition file_truthy (fo : FileStorage.t) : bool :=
  str_truthy (FileStorage.filename fo).

Section files.
Context {ext : Externals}.

Definition get_file (fo : FileStorage.t) : FileInfo.t :=
  FileInfo.mk fo (FileStorage.filename fo)
    (secure_filename (FileStorage.filename fo)).

(** One turn of the loop of [get_files] over the state
    [(files, file_names)] (lines 125-130). *)
Definition get_files_step (st : list FileInfo.t * gset string)
    (fo : FileStorage.t) : list FileInfo.t * gset string :=
  let '(files, file_names) := st in
  if file_truthy fo && str_truthy (FileStorage.filename fo) then
    let info := get_file fo in
    let files :=
      if bool_decide (FileInfo.secure_filename info ∉ file_names)
      then files ++ [get_file fo] else files in
    (files, file_names ∪ {[ FileInfo.secure_filename info ]})
  else st.

Definition get_files (request_files : list (string * FileStorage.t))
    (name : string) : list FileInfo.t :=
  (foldl get_files_step ([], ∅) (getlist request_files name)).1.

(** [if files := self.get_files(name): data[name] = files] *)
Definition put_files (request_files : list (string * FileStorage.t))
    (data : gmap string (list FileInfo.t)) (name : string)
    : gmap string (list FileInfo.t) :=
  match get_files request_files name with
  | [] => data
  | (_ :: _) as files => <[name := files]> data
  end.

Definition parse_files (request_files : list (string * FileStorage.t))
    (self : form) (names : list string) : gmap string (list FileInfo.t) :=
  let data := foldl (put_files request_files) ∅ names in
  foldl (λ data field,
           if truthy (Field.data field)
              && endswith (Field.type field) "FileField"
           then put_files request_files data (Field.name field)
           else data)
        data (fields self).
End files.

(** ** The heap monad *)

Definition M (A : Type) : Type := heap → result (A * heap).

#[global] Instance M_ret : MRet M := λ A a h, Ok (a, h).
#[global] Instance M_bind : MBind M := λ A B k m h,
  match m h with
  | Ok (a, h') => k a h'
  | Raise e => Raise e
  end.

(** A list display or [list(...)]: a new list object. *)
Definition alloc (l : list string) : M loc :=
  λ h, let ℓ := fresh (dom h) in Ok (ℓ, <[ℓ := l]> h).

Definition load (ℓ : loc) : M (list string) :=
  λ h, match h !! ℓ with
       | Some l => Ok (l, h)
       | None => Raise DanglingRef
       end.

Definition store (ℓ : loc) (l : list string) : M unit :=
  λ h, Ok (tt, <[ℓ := l]> h).

Definition lift {A} (r : result A) : M A :=
  λ h, match r with
       | Ok a => Ok (a, h)
       | Raise e => Raise e
       end.

(** [target.extend(items)] and [target.append(item)] mutate [target]. *)
Definition extend (target : loc) (items : list string) : M unit :=
  cur ← load target; store target (cur ++ items).

Definition append (target : loc) (item : string) : M unit :=
  cur ← load target; store target (cur ++ [item]).

(** ** Attribute resolver *)

(** ["__{}__".format(kind)] *)
Definition attr_name (kind : string) : string := "__" +:+ kind +:+ "__".

(** [attrs_.setdefault(k, v)] *)
Definition setdefault (k v : string) (attrs_ : gmap string string)
    : gmap string string :=
  match attrs_ !! k with
  | Some _ => attrs_
  | None => <[k := v]> attrs_
  end.

(** The walk over [__mro__] with [is_list] true: [attrs_] is the list
    object being extended. *)
Fixpoint get_attrs_list_loop (attr : string) (attrs_ : loc)
    (classes : list klass) : M unit :=
  match classes with
  | [] => mret tt
  | kls :: rest =>
      if (k_name kls =? "ToppingForm")%string then mret tt
      else
        declared ← match k_lists kls !! attr with
                   | Some ℓ => load ℓ
                   | None => mret []
                   end;
        extend attrs_ declared;;
        get_attrs_list_loop attr attrs_ rest
  end.

(** The walk with [is_list] false: [attrs_] is a dict local to the call. *)
Fixpoint get_attrs_dict_loop (attr : string) (attrs_ : gmap string string)
    (classes : list klass) : gmap string string :=
  match classes with
  | [] => attrs_
  | kls :: rest =>
      if (k_name kls =? "ToppingForm")%string then attrs_
      else
        let declared := default ∅ (k_dicts kls !! attr) in
        let attrs_ :=
          foldl (λ acc kv, setdefault kv.1 kv.2 acc) attrs_
                (map_to_list declared) in
        get_attrs_dict_loop attr attrs_ rest
  end.

Definition attrs_type (is_list : bool) : Type :=
  if is_list then loc else gmap string string.

Definition get_attrs (self : form) (kind : string) (is_list : bool)
    : M (attrs_type is_list) :=
  let attr := attr_name kind in
  match is_list return M (attrs_type is_list) with
  | true =>
      attrs_ ← alloc [];
      get_attrs_list_loop attr attrs_ (mro self);;
      collected ← load attrs_;
      alloc (elements (list_to_set collected : gset string))
  | false =>
      mret (get_attrs_dict_loop attr ∅ (mro self))
  end.

(** ** Form normaliser *)

(** What [parse_form] reads from its surroundings: [current_app.config]
    (string-valued settings), the clock that [datetime.now] reads, and
    whether [addict] can be imported. *)
Record context := Context_ {
  config : gmap string string;
  now : Z;
  addict : bool
}.

(** The returned mapping; [boxed] tells whether it is an [addict.Dict]. *)
Record record := Record_ {
  entries : gmap string value;
  boxed : bool
}.

(** [config.get(key) or fallback] *)
Definition config_or (cfg : gmap string string) (key fallback : string)
    : string :=
  match cfg !! key with
  | Some s => if str_truthy s then s else fallback
  | None => fallback
  end.

(** One turn of the loop over the fields (lines 159-173). *)
Definition parse_field (lowers uppers nostrips excludes : loc)
    (aliases : gmap string string) (dct : gmap string value)
    (field : Field.t) : M (gmap string value) :=
  let name := Field.name field in
  ex ← load excludes;
  if bool_decide (name ∈ ex)
     || bool_decide (Field.type field ∈ NON_VALUE_FIELDS)
  then mret dct
  else
    ns ← load nostrips;
    let data := Field.data field in
    let data :=
      if bool_decide (name ∉ ns)
         && negb (Field.type field =? "PasswordField")%string
      then strip_if_str data else data in
    data ← match data with
           | VNone => mret data
           | _ =>
               lo ← load lowers;
               if bool_decide (name ∈ lo) then lift (call_lower data)
               else
                 up ← load uppers;
                 if bool_decide (name ∈ up) then lift (call_upper data)
                 else mret data
           end;
    mret (<[default name (aliases !! name) := data]> dct).

Fixpoint parse_fields (lowers uppers nostrips excludes : loc)
    (aliases : gmap string string) (dct : gmap string value)
    (fs : list Field.t) : M (gmap string value) :=
  match fs with
  | [] => mret dct
  | field :: rest =>
      dct' ← parse_field lowers uppers nostrips excludes aliases dct field;
      parse_fields lowers uppers nostrips excludes aliases dct' rest
  end.

Definition parse_form (ctx : context) (self : form)
    (box_wrap use_timestamps : bool) : M record :=
  lowers ← get_attrs self "lowers" true;
  uppers ← get_attrs self "uppers" true;
  nostrips ← get_attrs self "nostrips" true;
  excludes ← get_attrs self "excludes" true;
  aliases ← get_attrs self "aliases" false;
  let csrf := config_or (config ctx) "WTF_CSRF_FIELD_NAME" "csrf_token" in
  (if str_truthy csrf then append excludes csrf else mret tt);;
  dct ← parse_fields lowers uppers nostrips excludes aliases ∅ (fields self);
  let dct :=
    if use_timestamps
    then <["updated_at" := VDateTime (now ctx)]>
           (<["created_at" := VDateTime (now ctx)]> dct)
    else dct in
  mret (Record_ dct (box_wrap && addict ctx)).

(** ** Vocabulary of the statements *)

(** The heap holds every list object that a class of the form declares
    (Python has no dangling references). *)
Definition heap_wf (self : form) (h : heap) : Prop :=
  ∀ kls attr ℓ, kls ∈ mro self → k_lists kls !! attr = Some ℓ → ℓ ∈ dom h.

(** The names that the walk of [get_attrs] reads from the declared list
    objects, in the order it reads them. *)
Fixpoint declared_names (attr : string) (classes : list klass) (h : heap)
    : list string :=
  match classes with
  | [] => []
  | kls :: rest =>
      if (k_name kls =? "ToppingForm")%string then []
      else
        match k_lists kls !! attr with
        | Some ℓ => default [] (h !! ℓ)
        | None => []
        end ++ declared_names attr rest h
  end.

(** The content of the list that [get_attrs(kind)] returns. *)
Definition resolved (self : form) (kind : string) (h : heap) : list string :=
  match get_attrs self kind true h with
  | Ok (ℓ, h') => default [] (h' !! ℓ)
  | Raise _ => []
  end.

(** The mapping that [get_attrs("aliases", is_list=False)] returns. *)
Definition resolved_aliases (self : form) : gmap string string :=
  get_attrs_dict_loop (attr_name "aliases") ∅ (mro self).

(** The name under which the anti-forgery token field is excluded. *)
Definition csrf_name (ctx : context) : string :=
  config_or (config ctx) "WTF_CSRF_FIELD_NAME" "csrf_token".

(** The key under which [parse_form] stores a field. *)
Definition output_key (self : form) (f : Field.t) : string :=
  default (Field.name f) (resolved_aliases self !! Field.name f).

(** The fields that [parse_form] passes over. *)
Definition skipped (ctx : context) (self : form) (h : heap) (f : Field.t)
    : Prop :=
  Field.name f ∈ resolved self "excludes" h
  ∨ Field.name f = csrf_name ctx
  ∨ Field.type f ∈ NON_VALUE_FIELDS.

(** The loop of [parse_form] read off the contents [lo], [up], [ns], [ex]
    of the four lists, without the heap. *)
Definition field_skipped (ex : list string) (f : Field.t) : bool :=
  bool_decide (Field.name f ∈ ex)
  || bool_decide (Field.type f ∈ NON_VALUE_FIELDS).

Definition field_value (lo up ns : list string) (f : Field.t)
    : result value :=
  let data :=
    if bool_decide (Field.name f ∉ ns)
       && negb (Field.type f =? "PasswordField")%string
    then strip_if_str (Field.data f) else Field.data f in
  match data with
  | VNone => Ok data
  | _ =>
      if bool_decide (Field.name f ∈ lo) then call_lower data
      else if bool_decide (Field.name f ∈ up) then call_upper data
      else Ok data
  end.

Fixpoint normalize_fields (lo up ns ex : list string)
    (al : gmap string string) (dct : gmap string value)
    (fs : list Field.t) : result (gmap string value) :=
  match fs with
  | [] => Ok dct
  | f :: rest =>
      if field_skipped ex f then normalize_fields lo up ns ex al dct rest
      else
        data ← field_value lo up ns f;
        normalize_fields lo up ns ex al
          (<[default (Field.name f) (al !! Field.name f) := data]> dct) rest
  end.

(** [dct.update(created_at=now, updated_at=now)] when asked for. *)
Definition stamp (use_timestamps : bool) (t : Z) (dct : gmap string value)
    : gmap string value :=
  if use_timestamps
  then <["updated_at" := VDateTime t]> (<["created_at" := VDateTime t]> dct)
  else dct.

(** The upload entries that [get_files] keeps: position [i] of the
    submitted list holds an entry with a file name, and no entry with a file
    name before it has the same sanitized name. *)
Definition kept {ext : Externals} (l : list FileStorage.t) (i : nat) : Prop :=
  ∃ fo, l !! i = Some fo
        ∧ FileStorage.filename fo ≠ ""
        ∧ ∀ j fo', j < i → l !! j = Some fo' →
            FileStorage.filename fo' ≠ "" →
            secure_filename (FileStorage.filename fo')
            ≠ secure_filename (FileStorage.filename fo).

(** ** The rule of the specification for the dependency value

    The specification trims the dependency value unless the dependency
    field is a password field.  [check_step_spec] is [check_step] with that
    one test taken from the specification's words; everything else is the
    source's. *)
Section required_if_spec.
Context {ext : Externals}.

Definition check_step_spec (form_ : form) (field : Field.t)
    (logics : nat) (c : check) : result nat :=
  let '(dep_name, op_, val) := c in
  dep ← form_getattr form_ dep_name;
  let depend_data := Field.data dep in
  let depend_data :=
    match depend_data with
    | VStr s =>
        if negb (Field.type dep =? "PasswordField")%string
        then VStr (strip s) else depend_data
    | _ => depend_data
    end in
  if truthy depend_data && str_truthy op_ then
    hit ← match operator_attr op_ with
          | Some func => logic1 ← func depend_data val; mret (truthy logic1)
          | None => logic2 ← method_call depend_data op_ val; mret (truthy logic2)
          end;
    mret (if hit : bool then S logics else logics)
  else mret logics.

Fixpoint check_loop_spec (form_ : form) (field : Field.t)
    (checks_ : list check) (logics : nat) : result nat :=
  match checks_ with
  | [] => mret logics
  | c :: rest =>
      logics' ← check_step_spec form_ field logics c;
      check_loop_spec form_ field rest logics'
  end.

Definition check_field_spec (depend_name op : string) (val : value)
    (checks : list check) (error_msg : string)
    (form_ : form) (field : Field.t) : result unit :=
  let data := strip_if_str (Field.data field) in
  if truthy data then mret tt
  else
    let checks_ := effective_checks depend_name op val checks in
    logics ← check_loop_spec form_ field checks_ 0;
    if (logics =? length checks_)%nat then Raise (ValidationError error_msg)
    else mret tt.
End required_if_spec.

(** ** Sample data for the examples *)

(** [==] on the values the examples compare. *)
Definition py_eq (a b : value) : bool :=
  match a, b with
  | VNone, VNone => true
  | VBool x, VBool y => bool_decide (x = y)
  | VInt x, VInt y => (x =? y)%Z
  | VStr s, VStr t => (s =? t)%string
  | _, _ => false
  end.

(** The two operators of the standard table that the examples name. *)
Definition sample_operator (op : string)
    : option (value → value → result value) :=
  if (op =? "eq")%string then Some (λ a b, Ok (VBool (py_eq a b)))
  else if (op =? "ne")%string then Some (λ a b, Ok (VBool (negb (py_eq a b))))
  else None.

(** A stand-in for the sanitizer in the examples: blanks become
    underscores, as [secure_filename] does with them. *)
Definition sample_secure_filename : string → string :=
  map_chars (λ c, if isspace c then "_"%char else c).

Definition sample_externals : Externals := {|
  secure_filename := sample_secure_filename;
  operator_attr := sample_operator;
  method_call := λ _ _ _, Raise AttributeError
|}.

#[global] Instance skipped_dec (ctx : context) (self : form) (h : heap)
    (f : Field.t) : Decision (skipped ctx self h f).
Proof. unfold skipped. apply _. Defined.

(** A sign-up form: a subclass of [ToppingForm] that lowercases [email],
    leaves [password] unstripped and stores [name] as [full_name].  The
    base class declares the five empty defaults. *)
Definition sample_base : klass :=
  Klass "ToppingForm"
    {[ "__lowers__" := 1%positive; "__uppers__" := 2%positive;
       "__nostrips__" := 3%positive; "__excludes__" := 4%positive ]}
    {[ "__aliases__" := ∅ ]}.

Definition sample_class : klass :=
  Klass "SignupForm"
    {[ "__lowers__" := 5%positive; "__nostrips__" := 6%positive ]}
    {[ "__aliases__" := {[ "name" := "full_name" ]} ]}.

Definition sample_heap : heap :=
  {[ 1%positive := []; 2%positive := []; 3%positive := []; 4%positive := [];
     5%positive := ["email"]; 6%positive := ["password"] ]}.

Definition sample_age : Field.t := Field.mk "age" "IntegerField" VNone.

Definition sample_form : form :=
  Form [sample_class; sample_base; Klass "FlaskForm" ∅ ∅; Klass "object" ∅ ∅]
       [ Field.mk "name" "StringField" (VStr " Bob ");
         Field.mk "email" "StringField" (VStr "A@B.com");
         Field.mk "password" "PasswordField" (VStr " secret ");
         sample_age;
         Field.mk "csrf_token" "CSRFTokenField" (VStr "token");
         Field.mk "avatar" "FileField" VNone;
         Field.mk "submit" "SubmitField" (VBool false) ].

Definition sample_context : context := Context_ ∅ 0 false.

(** ** Further vocabulary *)

(** A check counts toward [logics]: its turn of the loop adds one. *)
Definition check_counts {ext : Externals} (form_ : form) (field : Field.t)
    (c : check) : Prop :=
  check_step form_ field 0 c = Ok 1.

(** The collection that [filter_fields] tests the field types against. *)
Definition tags_of (ft : field_types) : list string :=
  match ft with
  | OneType t => [t]
  | Types ts => ts
  end.

(** The names that [parse_files] adds to the requested ones: the fields
    whose data is truthy and whose type ends in "FileField". *)
Definition bound_file_fields (self : form) : list string :=
  Field.name <$>
    filter (λ f, truthy (Field.data f)
                 && endswith (Field.type f) "FileField" = true)
           (fields self).

(** The fields that [parse_form] keeps and that are listed for a case
    change hold a string or nothing. *)
Definition case_ready (ctx : context) (self : form) (h : heap) : Prop :=
  ∀ g, g ∈ fields self → ¬ skipped ctx self h g →
       Field.name g ∈ resolved self "lowers" h
       ∨ Field.name g ∈ resolved self "uppers" h →
       Field.data g = VNone ∨ ∃ s, Field.data g = VStr s.

(** A form whose class lists the integer field [age] for lowercasing. *)
Definition sample_census_class : klass :=
  Klass "CensusForm" {[ "__lowers__" := 5%positive ]} ∅.

Definition sample_census_heap : heap :=
  {[ 1%positive := []; 2%positive := []; 3%positive := []; 4%positive := [];
     5%positive := ["age"] ]}.

Definition sample_census_age : Field.t :=
  Field.mk "age" "IntegerField" (VInt 42).

Definition sample_census_form : form :=
  Form [sample_census_class; sample_base] [sample_census_age].

(** A sign-up form of two text fields, for the validator. *)
Definition sample_email : Field.t :=
  Field.mk "email" "StringField" (VStr "a@b.com").

Definition sample_confirm : Field.t :=
  Field.mk "confirm_email" "StringField" (VStr "").

Definition sample_signup : form := Form [] [sample_email; sample_confirm].

(** * Proofs *)

(** ** Field classifier *)

Lemma filter_fields_elem (self : form) (ts : list string) (c : bool) (n : string) :
  n ∈ filter_fields self (Types ts) c ↔
  ∃ f, f ∈ fields self ∧ Field.name f = n
       ∧ if c then Field.type f ∈ ts else Field.type f ∉ ts.
Proof.
  unfold filter_fields. destruct c; rewrite list_elem_of_fmap; split.
  - intros [f [-> [Ht Hf]%list_elem_of_filter]]. by exists f.
  - intros [f (Hf & <- & Ht)]. exists f. by rewrite list_elem_of_filter.
  - intros [f [-> [Ht Hf]%list_elem_of_filter]]. by exists f.
  - intros [f (Hf & <- & Ht)]. exists f. by rewrite list_elem_of_filter.
Qed.

Lemma field_name_inj (self : form) (f g : Field.t) :
  NoDup (Field.name <$> fields self) →
  f ∈ fields self → g ∈ fields self → Field.name f = Field.name g → f = g.
Proof.
  intros Hnd [i Hi]%list_elem_of_lookup [j Hj]%list_elem_of_lookup Hn.
  assert (i = j) as ->; [|congruence].
  apply (NoDup_lookup _ i j (Field.name f) Hnd).
  - by rewrite list_lookup_fmap, Hi.
  - by rewrite list_lookup_fmap, Hj, Hn.
Qed.

Lemma filter_fields_partition (self : form) (ts : list string) :
  NoDup (Field.name <$> fields self) →
  (∀ n, n ∈ filter_fields self (Types ts) false →
        n ∉ filter_fields self (Types ts) true)
  ∧ (∀ n, n ∈ filter_fields self (Types ts) false
          ∨ n ∈ filter_fields self (Types ts) true
          ↔ n ∈ Field.name <$> fields self).
Proof.
  intros Hnd. split.
  - intros n [f (Hf & Hn & Hout)]%filter_fields_elem
             [g (Hg & Hm & Hin)]%filter_fields_elem.
    assert (f = g) as ->; [|done].
    apply (field_name_inj self); [done..|congruence].
  - intros n. rewrite !filter_fields_elem, list_elem_of_fmap. split.
    + intros [[f (Hf & <- & _)]|[f (Hf & <- & _)]]; by exists f.
    + intros [f [-> Hf]]. destruct (decide (Field.type f ∈ ts)).
      * right. by exists f.
      * left. by exists f.
Qed.

(** Claim C10.  [filter_fields] takes a bare string for one type tag: for
    every tag [t] and every form the call with the string returns the list
    that the call with the one-element collection returns, namely the names
    of the fields whose type is [t] (or is not [t], when [contains] is
    false). *)
Theorem filter_fields_bare_string (self : form) (t : string)
    (contains : bool) :
  filter_fields self (OneType t) contains
  = filter_fields self (Types [t]) contains
  ∧ ∀ n, n ∈ filter_fields self (OneType t) contains
         ↔ ∃ f, f ∈ fields self ∧ Field.name f = n
                ∧ if contains then Field.type f = t else Field.type f ≠ t.
Proof.
  split; [done|]. intros n.
  change (filter_fields self (OneType t) contains)
    with (filter_fields self (Types [t]) contains).
  rewrite filter_fields_elem.
  destruct contains; by setoid_rewrite list_elem_of_singleton.
Qed.

(** Claim C6.  On a form (whose field names are distinct), [html_fields] and
    the names of the fields typed submit, csrf-token, hidden, composite-form
    or field-list share no name, and together they are all the field names;
    more generally [filter_fields] with [contains] false is the complement
    of [filter_fields] with [contains] true over any tag set. *)
Theorem html_fields_complement (self : form) :
  NoDup (Field.name <$> fields self) →
  let non_html := filter_fields self (Types NON_HTML_FIELDS) true in
  (∀ n, n ∈ non_html
        ↔ ∃ f, f ∈ fields self ∧ Field.name f = n
               ∧ Field.type f ∈ NON_HTML_FIELDS)
  ∧ (∀ n, n ∈ html_fields self → n ∉ non_html)
  ∧ (∀ n, n ∈ html_fields self ∨ n ∈ non_html
          ↔ n ∈ Field.name <$> fields self)
  ∧ (∀ ts, (∀ n, n ∈ filter_fields self (Types ts) false
                 → n ∉ filter_fields self (Types ts) true)
           ∧ (∀ n, n ∈ filter_fields self (Types ts) false
                   ∨ n ∈ filter_fields self (Types ts) true
                   ↔ n ∈ Field.name <$> fields self)).
Proof.
  intros Hnd non_html.
  destruct (filter_fields_partition self NON_HTML_FIELDS Hnd) as [Hdis Hall].
  split; [intros n; apply filter_fields_elem|].
  split; [exact Hdis|]. split; [exact Hall|].
  intros ts. by apply filter_fields_partition.
Qed.

Lemma sample_form_names : NoDup (Field.name <$> fields sample_form).
Proof. by apply (bool_decide_unpack _). Qed.

Lemma html_fields_complement_witness :
  NoDup (Field.name <$> fields sample_form)
  ∧ ∀ n, n ∈ html_fields sample_form
         → n ∉ filter_fields sample_form (Types NON_HTML_FIELDS) true.
Proof.
  split; [exact sample_form_names|].
  exact (proj1 (proj2 (html_fields_complement sample_form sample_form_names))).
Defined.

(** ** required_if *)

Lemma str_truthy_spec (s : string) : str_truthy s = true ↔ s ≠ "".
Proof.
  unfold str_truthy. rewrite negb_true_iff. apply String.eqb_neq.
Qed.

Lemma str_truthy_false (s : string) : str_truthy s = false ↔ s = "".
Proof.
  unfold str_truthy. rewrite negb_false_iff. apply String.eqb_eq.
Qed.

Lemma form_getattr_missing (self : form) (attr : string) :
  (∀ f, f ∈ fields self → Field.name f ≠ attr) →
  form_getattr self attr = Raise AttributeError.
Proof.
  intros Hno. unfold form_getattr.
  destruct (List.find _ (fields self)) as [f|] eqn:Hfind; [|done].
  apply find_some in Hfind as [Hin Heq%String.eqb_eq].
  by destruct (Hno f (proj2 (list_elem_of_In _ _) Hin)).
Qed.

(** Claim C2, amended.  A validator built with an empty check list and an
    empty [depend_name] runs the single default check [("", op, value)]:
    the effective list is never empty.  Whenever the target value (trimmed)
    is empty and the form has no field named [""], the call fails with the
    attribute-not-found error, not with the validation failure, whatever
    the other fields hold. *)
Theorem check_field_default_check_without_dependency {ext : Externals}
    (op : string) (val : value) (error_msg : string)
    (form_ : form) (field : Field.t) :
  truthy (strip_if_str (Field.data field)) = false →
  (∀ f, f ∈ fields form_ → Field.name f ≠ "") →
  effective_checks "" op val [] = [("", op, val)]
  ∧ required_if "" op val [] error_msg form_ field = Raise AttributeError.
Proof.
  intros Hempty Hno. split; [done|].
  unfold required_if, check_field. rewrite Hempty. simpl.
  by rewrite (form_getattr_missing form_ "" Hno).
Qed.

Lemma check_field_default_check_without_dependency_witness :
  required_if (ext := sample_externals) "" "ne" (VStr "") []
    "This field is required"
    (Form [] [Field.mk "email" "StringField" (VStr "a@b.com");
              Field.mk "confirm_email" "StringField" (VStr " ")])
    (Field.mk "confirm_email" "StringField" (VStr " "))
  = Raise AttributeError.
Proof.
  apply (check_field_default_check_without_dependency (ext := sample_externals)).
  - reflexivity.
  - intros f Hf. repeat (apply elem_of_cons in Hf as [->|Hf]; [discriminate|]).
    by apply not_elem_of_nil in Hf.
Defined.

(** Claim C2 as stated fails: with an empty check list and an empty
    [depend_name] the validator does not raise the validation failure on
    every empty target. *)
Lemma required_if_empty_checks_not_validation_error :
  ¬ (∀ (E : Externals) (op : string) (val : value) (error_msg : string)
       (form_ : form) (field : Field.t),
       truthy (strip_if_str (Field.data field)) = false →
       required_if "" op val [] error_msg form_ field
       = Raise (ValidationError error_msg)).
Proof.
  intros Hclaim.
  specialize (Hclaim sample_externals "" VNone "This field is required"
    (Form [] [Field.mk "email" "StringField" (VStr "a@b.com");
              Field.mk "confirm_email" "StringField" (VStr "")])
    (Field.mk "confirm_email" "StringField" (VStr "")) eq_refl).
  discriminate Hclaim.
Qed.

(** Claim C1 says that the dependency value is trimmed unless the
    dependency field is a password field.  The code decides by the type of
    the target [field] (line 52).  With a password dependency holding two
    blanks and an empty text target, the code trims the dependency, finds it
    empty and lets the target pass, where the rule of the claim fails the
    validation; with a text dependency holding two blanks and an empty
    password target, the code keeps the blanks and fails the validation,
    where the rule of the claim passes. *)
Theorem check_field_trim_follows_target_type :
  let message := "This field is required" in
  let password := Field.mk "password" "PasswordField" (VStr "  ") in
  let nickname := Field.mk "nickname" "StringField" (VStr "") in
  let email := Field.mk "email" "StringField" (VStr "  ") in
  let secret := Field.mk "secret" "PasswordField" (VStr "") in
  (check_field (ext := sample_externals) "" "" VNone
     [("password", "ne", VStr "")] message
     (Form [] [password; nickname]) nickname = Ok tt
   ∧ check_field_spec (ext := sample_externals) "" "" VNone
       [("password", "ne", VStr "")] message
       (Form [] [password; nickname]) nickname
     = Raise (ValidationError message))
  ∧ (check_field (ext := sample_externals) "" "" VNone
       [("email", "ne", VStr "")] message
       (Form [] [email; secret]) secret
     = Raise (ValidationError message)
     ∧ check_field_spec (ext := sample_externals) "" "" VNone
         [("email", "ne", VStr "")] message
         (Form [] [email; secret]) secret = Ok tt).
Proof. repeat split; reflexivity. Qed.

(** ** File extractor *)

Section files.
Context {ext : Externals}.

Local Abbreviation sane fo := (secure_filename (FileStorage.filename fo)).

Lemma file_test (fo : FileStorage.t) :
  file_truthy fo && str_truthy (FileStorage.filename fo)
  = str_truthy (FileStorage.filename fo).
Proof. unfold file_truthy. apply andb_diag. Qed.

Lemma kept_app_l (l l' : list FileStorage.t) (i : nat) :
  i < length l → kept (l ++ l') i ↔ kept l i.
Proof.
  intros Hi. unfold kept. split; intros (fo & Hfo & Hname & Hfirst).
  - exists fo. rewrite lookup_app_l in Hfo by done.
    split; [done|]. split; [done|]. intros j fo' Hj Hfo'.
    apply (Hfirst j fo' Hj). rewrite lookup_app_l by lia. done.
  - exists fo. rewrite lookup_app_l by done.
    split; [done|]. split; [done|]. intros j fo' Hj Hfo'.
    apply (Hfirst j fo' Hj). by rewrite lookup_app_l in Hfo' by lia.
Qed.

Lemma kept_lt (l : list FileStorage.t) (i : nat) : kept l i → i < length l.
Proof. intros (fo & Hfo & _). by apply lookup_lt_Some in Hfo. Qed.

Lemma kept_last (l : list FileStorage.t) (fo : FileStorage.t) :
  kept (l ++ [fo]) (length l)
  ↔ FileStorage.filename fo ≠ ""
    ∧ ∀ j fo', l !! j = Some fo' → FileStorage.filename fo' ≠ "" →
               sane fo' ≠ sane fo.
Proof.
  unfold kept. rewrite list_lookup_middle by done. split.
  - intros (fo0 & [= <-] & Hname & Hfirst). split; [done|].
    intros j fo' Hj Hn. apply (Hfirst j fo'); [|by apply lookup_app_l_Some|done].
    by apply lookup_lt_Some in Hj.
  - intros [Hname Hfirst]. exists fo. split; [done|]. split; [done|].
    intros j fo' Hlt Hj. apply (Hfirst j).
    by rewrite lookup_app_l in Hj by done.
Qed.

(** The state of the loop of [get_files] after the entries [l]. *)
Lemma get_files_loop_spec (l : list FileStorage.t) :
  ∃ idxs files names,
    foldl get_files_step ([], ∅) l = (files, names)
    ∧ (∀ s, s ∈ names ↔
            ∃ j fo', l !! j = Some fo'
                     ∧ FileStorage.filename fo' ≠ "" ∧ sane fo' = s)
    ∧ StronglySorted lt idxs
    ∧ (∀ i, i ∈ idxs ↔ kept l i)
    ∧ Forall2 (λ i info, get_file <$> l !! i = Some info) idxs files.
Proof.
  induction l as [|fo l IH] using rev_ind.
  { exists [], [], ∅. split; [done|]. split; [|split; [constructor|split]].
    - intros s. split; [by intros ?%not_elem_of_empty|].
      by intros (j & fo' & Hj & _).
    - intros i. split; [by intros ?%not_elem_of_nil|].
      by intros (fo & Hfo & _).
    - constructor. }
  destruct IH as (idxs & files & names & Hrun & Hnames & Hsort & Hidx & Hfiles).
  rewrite foldl_app, Hrun. simpl. rewrite file_test.
  assert (∀ i, i < length l → kept (l ++ [fo]) i ↔ kept l i) as Hold
    by (intros i; apply kept_app_l).
  assert (Forall2 (λ i info, get_file <$> (l ++ [fo]) !! i = Some info)
            idxs files) as Hfiles'.
  { eapply Forall2_impl; [exact Hfiles|]. intros i info Hi. simpl in Hi.
    destruct (l !! i) as [x|] eqn:Hx; [|done].
    by rewrite (lookup_app_l_Some _ _ _ _ Hx). }
  destruct (str_truthy (FileStorage.filename fo)) eqn:Hname.
  - apply str_truthy_spec in Hname.
    assert (∀ s, s ∈ names ∪ {[sane fo]} ↔
              ∃ j fo', (l ++ [fo]) !! j = Some fo'
                       ∧ FileStorage.filename fo' ≠ "" ∧ sane fo' = s)
      as Hnames'.
    { intros s. rewrite elem_of_union, elem_of_singleton, Hnames. split.
      - intros [(j & fo' & Hj & Hn & Hs)| ->].
        + exists j, fo'. by rewrite (lookup_app_l_Some _ _ _ _ Hj).
        + exists (length l), fo. by rewrite list_lookup_middle.
      - intros (j & fo' & Hj & Hn & Hs).
        destruct (proj1 (lookup_snoc_Some _ _ _ _) Hj) as [[Hlt Hj']|[_ Heq]].
        + left. by exists j, fo'.
        + right. by rewrite Heq. }
    case_bool_decide as Hnew.
    + exists (idxs ++ [length l]), (files ++ [get_file fo]), (names ∪ {[sane fo]}).
      split; [done|]. split; [exact Hnames'|]. split; [|split].
      * apply StronglySorted_app. split; [|split; [done|repeat constructor]].
        intros i j Hi ->%list_elem_of_singleton.
        by apply kept_lt, Hidx.
      * intros i. rewrite elem_of_app, list_elem_of_singleton. split.
        -- intros [Hi| ->].
           ++ apply Hold; [by apply kept_lt, Hidx|by apply Hidx].
           ++ apply kept_last. split; [done|].
              intros j fo' Hj Hn Hs. apply Hnew, Hnames. by exists j, fo'.
        -- intros Hk. destruct (decide (i = length l)) as [->|Hne]; [by right|].
           left. apply Hidx, Hold; [|done].
           apply kept_lt in Hk. rewrite length_app in Hk. simpl in Hk. lia.
      * apply Forall2_app; [done|]. constructor; [|constructor].
        by rewrite list_lookup_middle.
    + exists idxs, files, (names ∪ {[sane fo]}).
      split; [done|]. split; [exact Hnames'|]. split; [done|].
      split; [|done]. intros i. rewrite Hidx. split.
      * intros Hk. apply Hold; [by apply kept_lt|done].
      * intros Hk. destruct (decide (i = length l)) as [->|Hne].
        -- apply kept_last in Hk as [_ Hfirst].
           apply Hnames in Hnew as (j & fo' & Hj & Hn & Hs).
           by destruct (Hfirst j fo').
        -- apply Hold; [|done].
           apply kept_lt in Hk. rewrite length_app in Hk. simpl in Hk. lia.
  - apply str_truthy_false in Hname.
    exists idxs, files, names. split; [done|]. split; [|split; [done|split]].
    + intros s. rewrite Hnames. split.
      * intros (j & fo' & Hj & Hn & Hs). exists j, fo'.
        by rewrite (lookup_app_l_Some _ _ _ _ Hj).
      * intros (j & fo' & Hj & Hn & Hs).
        destruct (proj1 (lookup_snoc_Some _ _ _ _) Hj) as [[Hlt Hj']|[_ Heq]].
        -- by exists j, fo'.
        -- by rewrite Heq in Hname.
    + intros i. rewrite Hidx. split.
      * intros Hk. apply Hold; [by apply kept_lt|done].
      * intros Hk. destruct (decide (i = length l)) as [->|Hne].
        -- by apply kept_last in Hk as [? _].
        -- apply Hold; [|done].
           apply kept_lt in Hk. rewrite length_app in Hk. simpl in Hk. lia.
    + done.
Qed.

(** Claim C3.  [get_files] returns, in submission order, exactly the entries
    that have a file name and whose sanitized name no earlier entry with a
    file name has: the result lists [get_file] of the entries at the
    positions [idxs], which increase and are the [kept] positions.  In
    particular two submitted entries with distinct file names and one
    sanitized name give one descriptor, that of the first. *)
Theorem get_files_first_seen (request_files : list (string * FileStorage.t))
    (name : string) :
  let l := getlist request_files name in
  (∃ idxs, StronglySorted lt idxs
           ∧ (∀ i, i ∈ idxs ↔ kept l i)
           ∧ Forall2 (λ i info, get_file <$> l !! i = Some info)
                     idxs (get_files request_files name))
  ∧ (∀ fo1 fo2, l = [fo1; fo2] →
       FileStorage.filename fo1 ≠ "" → FileStorage.filename fo2 ≠ "" →
       FileStorage.filename fo1 ≠ FileStorage.filename fo2 →
       sane fo1 = sane fo2 →
       get_files request_files name = [get_file fo1]).
Proof.
  intros l. split.
  - destruct (get_files_loop_spec l)
      as (idxs & files & names & Hrun & _ & Hsort & Hidx & Hfiles).
    exists idxs. unfold get_files. fold l. by rewrite Hrun.
  - intros fo1 fo2 Hl Hn1%str_truthy_spec Hn2%str_truthy_spec _ Hsame.
    unfold get_files. fold l. rewrite Hl.
    cbn [foldl]. unfold get_files_step at 2.
    rewrite file_test, Hn1.
    rewrite bool_decide_eq_true_2 by apply not_elem_of_empty.
    unfold get_files_step. rewrite file_test, Hn2.
    rewrite bool_decide_eq_false_2; [done|]. cbn [FileInfo.secure_filename get_file].
    intros Hnot. apply Hnot. rewrite <- Hsame.
    apply elem_of_union_r. by apply elem_of_singleton.
Qed.
End files.

Section parse_files.
Context {ext : Externals}.
Context (request_files : list (string * FileStorage.t)).

Local Abbreviation put := (put_files request_files).
Local Abbreviation files_of := (get_files request_files).

Lemma put_files_lookup (data : gmap string (list FileInfo.t))
    (name k : string) :
  put data name !! k
  = if decide (k = name ∧ files_of k ≠ [])
    then Some (files_of k) else data !! k.
Proof.
  unfold put_files. case_decide as Hk.
  - destruct Hk as [-> Hne].
    destruct (files_of name) as [|info files]; [done|].
    apply lookup_insert_eq.
  - destruct (files_of name) as [|info files] eqn:Hfiles; [done|].
    apply lookup_insert_ne. intros <-. apply Hk. by rewrite Hfiles.
Qed.

Lemma foldl_put_files_lookup (keys : list string)
    (data : gmap string (list FileInfo.t)) (k : string) :
  foldl put data keys !! k
  = if decide (k ∈ keys ∧ files_of k ≠ [])
    then Some (files_of k) else data !! k.
Proof.
  revert data. induction keys as [|a keys IH]; intros data.
  { rewrite decide_False; [done|].
    intros [Hk _]. by apply not_elem_of_nil in Hk. }
  simpl. rewrite IH, put_files_lookup.
  pose proof (elem_of_cons keys k a) as Hcons.
  repeat case_decide; try done; exfalso; tauto.
Qed.

Lemma foldl_put_files_fields (fs : list Field.t)
    (data : gmap string (list FileInfo.t)) :
  foldl (λ data field,
           if truthy (Field.data field)
              && endswith (Field.type field) "FileField"
           then put data (Field.name field) else data) data fs
  = foldl put data
      (Field.name <$>
         filter (λ f, truthy (Field.data f)
                      && endswith (Field.type f) "FileField" = true) fs).
Proof.
  revert data. induction fs as [|f fs IH]; intros data; [done|].
  rewrite filter_cons. simpl.
  destruct (truthy (Field.data f) && endswith (Field.type f) "FileField")
    eqn:Hc.
  - rewrite decide_True by done. simpl. apply IH.
  - rewrite decide_False by done. apply IH.
Qed.

Lemma auto_names_elem (self : form) (k : string) :
  k ∈ Field.name <$>
        filter (λ f, truthy (Field.data f)
                     && endswith (Field.type f) "FileField" = true)
               (fields self)
  ↔ ∃ f, f ∈ fields self ∧ Field.name f = k
         ∧ truthy (Field.data f) = true
         ∧ endswith (Field.type f) "FileField" = true.
Proof.
  rewrite list_elem_of_fmap. split.
  - intros (f & -> & [Hc%andb_true_iff Hf]%list_elem_of_filter).
    exists f. tauto.
  - intros (f & Hf & <- & Ht & He). exists f. split; [done|].
    apply list_elem_of_filter. split; [|done].
    apply andb_true_iff. tauto.
Qed.

(** Claim C8.  The keys of [parse_files] are drawn from the requested names
    and the names of the fields whose type ends in "FileField" and whose
    data is truthy; such a name is a key exactly when [get_files] of it is
    not empty, and it is mapped to that list. *)
Theorem parse_files_keys (self : form) (names : list string)
    (k : string) (l : list FileInfo.t) :
  parse_files request_files self names !! k = Some l
  ↔ (k ∈ names
     ∨ ∃ f, f ∈ fields self ∧ Field.name f = k
            ∧ truthy (Field.data f) = true
            ∧ endswith (Field.type f) "FileField" = true)
    ∧ files_of k = l ∧ l ≠ [].
Proof.
  rewrite <- auto_names_elem, <- elem_of_app.
  unfold parse_files.
  pose proof (foldl_put_files_fields (fields self)
                (foldl put ∅ names)) as ->.
  pose proof (foldl_app put names
    (Field.name <$>
       filter (λ f, truthy (Field.data f)
                    && endswith (Field.type f) "FileField" = true)
              (fields self)) ∅) as <-.
  pose proof (foldl_put_files_lookup
    (names ++ (Field.name <$>
       filter (λ f, truthy (Field.data f)
                    && endswith (Field.type f) "FileField" = true)
              (fields self))) ∅ k) as ->.
  rewrite lookup_empty. case_decide as Hk.
  - destruct Hk as [Hin Hne]. split.
    + intros [= <-]. tauto.
    + by intros (_ & <- & _).
  - split; [done|]. intros (Hin & <- & Hne). destruct Hk. tauto.
Qed.
End parse_files.

(** ** The heap monad *)

Lemma M_bind_ok {A B} (m : M A) (k : A → M B) (h h' : heap) (a : A) :
  m h = Ok (a, h') → (m ≫= k) h = k a h'.
Proof. intros Hm. unfold mbind, M_bind. by rewrite Hm. Qed.

Lemma load_ok (ℓ : loc) (l : list string) (h : heap) :
  h !! ℓ = Some l → load ℓ h = Ok (l, h).
Proof. intros Hl. unfold load. by rewrite Hl. Qed.

Lemma extend_ok (ℓ : loc) (cur items : list string) (h : heap) :
  h !! ℓ = Some cur → extend ℓ items h = Ok (tt, <[ℓ := cur ++ items]> h).
Proof. intros Hl. unfold extend. by rewrite (M_bind_ok _ _ _ _ _ (load_ok _ _ _ Hl)). Qed.

Lemma append_ok (ℓ : loc) (cur : list string) (item : string) (h : heap) :
  h !! ℓ = Some cur → append ℓ item h = Ok (tt, <[ℓ := cur ++ [item]]> h).
Proof. intros Hl. unfold append. by rewrite (M_bind_ok _ _ _ _ _ (load_ok _ _ _ Hl)). Qed.

Lemma alloc_ok (l : list string) (h : heap) :
  ∃ ℓ, alloc l h = Ok (ℓ, <[ℓ := l]> h) ∧ h !! ℓ = None.
Proof.
  exists (fresh (dom h)). split; [done|].
  apply not_elem_of_dom, is_fresh.
Qed.

(** ** Attribute resolver *)

Lemma declared_names_frame (attr : string) (classes : list klass) (h h' : heap) :
  (∀ kls a ℓ, kls ∈ classes → k_lists kls !! a = Some ℓ → h' !! ℓ = h !! ℓ) →
  declared_names attr classes h' = declared_names attr classes h.
Proof.
  induction classes as [|kls rest IH]; intros Hagree; [done|].
  simpl. destruct (k_name kls =? "ToppingForm")%string; [done|].
  rewrite IH.
  - destruct (k_lists kls !! attr) as [ℓ|] eqn:Hℓ; [|done].
    by rewrite (Hagree kls attr ℓ (list_elem_of_here _ _) Hℓ).
  - intros k a ℓ Hk. apply Hagree. by apply list_elem_of_further.
Qed.

Lemma get_attrs_list_loop_spec (attr : string) (attrs_ : loc)
    (classes : list klass) (cur : list string) (h : heap) :
  h !! attrs_ = Some cur →
  (∀ kls a ℓ, kls ∈ classes → k_lists kls !! a = Some ℓ →
              ℓ ∈ dom h ∧ ℓ ≠ attrs_) →
  get_attrs_list_loop attr attrs_ classes h
  = Ok (tt, <[attrs_ := cur ++ declared_names attr classes h]> h).
Proof.
  revert cur h. induction classes as [|kls rest IH]; intros cur h Hcur Hwf.
  - simpl. by rewrite app_nil_r, insert_id.
  - simpl. destruct (k_name kls =? "ToppingForm")%string.
    { by rewrite app_nil_r, insert_id. }
    set (d := match k_lists kls !! attr with
              | Some ℓ => default [] (h !! ℓ) | None => [] end).
    assert (match k_lists kls !! attr with
            | Some ℓ => load ℓ | None => mret [] end h = Ok (d, h)) as Hd.
    { subst d. destruct (k_lists kls !! attr) as [ℓ|] eqn:Hℓ; [|done].
      destruct (Hwf kls attr ℓ (list_elem_of_here _ _) Hℓ) as [Hin _].
      apply elem_of_dom in Hin as [l Hl]. rewrite Hl. by apply load_ok. }
    rewrite (M_bind_ok _ _ _ _ _ Hd).
    rewrite (M_bind_ok _ _ _ _ _ (extend_ok _ _ _ _ Hcur)).
    rewrite (IH (cur ++ d)).
    + rewrite insert_insert_eq, <- app_assoc.
      rewrite (declared_names_frame attr rest h); [done|].
      intros k a ℓ Hk Hℓ. apply lookup_insert_ne. symmetry.
      by apply (Hwf k a ℓ (list_elem_of_further _ _ _ Hk) Hℓ).
    + apply lookup_insert_eq.
    + intros k a ℓ Hk Hℓ.
      destruct (Hwf k a ℓ (list_elem_of_further _ _ _ Hk) Hℓ) as [Hin Hne].
      split; [|done]. rewrite dom_insert_L. by apply elem_of_union_r.
Qed.

Lemma get_attrs_list_spec (self : form) (kind : string) (h : heap) :
  heap_wf self h →
  ∃ (ℓ : loc) h', get_attrs self kind true h = Ok (ℓ, h')
          ∧ h ⊆ h'
          ∧ h !! ℓ = None
          ∧ h' !! ℓ = Some (elements (list_to_set
               (declared_names (attr_name kind) (mro self) h) : gset string)).
Proof.
  intros Hwf. unfold get_attrs.
  destruct (alloc_ok [] h) as (a & Ha & Hfresh).
  rewrite (M_bind_ok _ _ _ _ _ Ha).
  erewrite M_bind_ok; cycle 1.
  { apply (get_attrs_list_loop_spec _ _ _ []); [apply lookup_insert_eq|].
    intros kls at_ ℓ Hk Hℓ. specialize (Hwf kls at_ ℓ Hk Hℓ). split.
    - rewrite dom_insert_L. by apply elem_of_union_r.
    - intros ->. by apply not_elem_of_dom in Hfresh. }
  rewrite insert_insert_eq. simpl.
  erewrite M_bind_ok; [|apply load_ok, lookup_insert_eq].
  set (names := declared_names _ _ _).
  assert (names = declared_names (attr_name kind) (mro self) h) as Hnames.
  { apply declared_names_frame. intros kls at_ ℓ Hk Hℓ.
    apply lookup_insert_ne. intros ->.
    specialize (Hwf kls at_ ℓ Hk Hℓ). by apply not_elem_of_dom in Hfresh. }
  destruct (alloc_ok (elements (list_to_set names : gset string))
              (<[a := names]> h)) as (b & Hb & Hfresh').
  exists b, (<[b := elements (list_to_set names : gset string)]> (<[a := names]> h)).
  split; [exact Hb|]. split; [|split].
  - etrans; [apply (insert_subseteq h a names Hfresh)|].
    by apply insert_subseteq.
  - apply lookup_insert_None in Hfresh'. tauto.
  - rewrite lookup_insert_eq. by rewrite Hnames.
Qed.

Lemma heap_wf_mono (self : form) (h h' : heap) :
  heap_wf self h → h ⊆ h' → heap_wf self h'.
Proof.
  intros Hwf Hsub kls a ℓ Hk Hℓ.
  apply (subseteq_dom h h' Hsub). by apply (Hwf kls a ℓ).
Qed.

Lemma declared_names_mono (self : form) (attr : string) (h h' : heap) :
  heap_wf self h → h ⊆ h' →
  declared_names attr (mro self) h' = declared_names attr (mro self) h.
Proof.
  intros Hwf Hsub. apply declared_names_frame. intros kls a ℓ Hk Hℓ.
  pose proof (Hwf kls a ℓ Hk Hℓ) as [l Hl]%elem_of_dom.
  rewrite Hl. by apply (lookup_weaken h h').
Qed.

Lemma resolved_spec (self : form) (kind : string) (h : heap) :
  heap_wf self h →
  resolved self kind h
  = elements (list_to_set (declared_names (attr_name kind) (mro self) h)
              : gset string).
Proof.
  intros Hwf. unfold resolved.
  destruct (get_attrs_list_spec self kind h Hwf) as (ℓ & h' & -> & _ & _ & Hl).
  exact (f_equal (default []) Hl).
Qed.

Lemma resolved_mono (self : form) (kind : string) (h h' : heap) :
  heap_wf self h → h ⊆ h' → resolved self kind h' = resolved self kind h.
Proof.
  intros Hwf Hsub.
  rewrite !resolved_spec by eauto using heap_wf_mono.
  by rewrite (declared_names_mono self _ h h').
Qed.

Lemma get_attrs_list_resolved (self : form) (kind : string) (h : heap) :
  heap_wf self h →
  ∃ (ℓ : loc) h', get_attrs self kind true h = Ok (ℓ, h')
          ∧ h ⊆ h' ∧ h !! ℓ = None
          ∧ h' !! ℓ = Some (resolved self kind h).
Proof.
  intros Hwf. rewrite resolved_spec by done. by apply get_attrs_list_spec.
Qed.

Lemma setdefault_lookup (k v k' : string) (m : gmap string string) :
  setdefault k v m !! k'
  = match m !! k' with
    | Some w => Some w
    | None => if decide (k = k') then Some v else None
    end.
Proof.
  unfold setdefault. destruct (decide (k = k')) as [->|Hne].
  - destruct (m !! k') eqn:Hm; [by rewrite Hm|]. by rewrite lookup_insert_eq.
  - destruct (m !! k) eqn:Hm.
    + by destruct (m !! k').
    + rewrite lookup_insert_ne by done. by destruct (m !! k').
Qed.

Lemma setdefault_items_lookup (items : list (string * string))
    (m : gmap string string) (k : string) :
  NoDup items.*1 →
  foldl (λ acc kv, setdefault kv.1 kv.2 acc) m items !! k
  = match m !! k with
    | Some w => Some w
    | None => (list_to_map items : gmap string string) !! k
    end.
Proof.
  revert m. induction items as [|[a v] items IH]; intros m Hnd.
  { simpl. rewrite lookup_empty. by destruct (m !! k). }
  apply NoDup_cons in Hnd as [Hnotin Hnd]. simpl.
  rewrite IH, setdefault_lookup by done.
  destruct (m !! k) as [w|]; [done|].
  destruct (decide (a = k)) as [->|Hne].
  - by rewrite lookup_insert_eq.
  - by rewrite lookup_insert_ne.
Qed.

Lemma get_attrs_dict_loop_lookup (attr : string) (walked rest : list klass)
    (attrs_ : gmap string string) (k : string) :
  Forall (λ kls, k_name kls ≠ "ToppingForm") walked →
  (rest = [] ∨ ∃ base rest', rest = base :: rest'
                             ∧ k_name base = "ToppingForm") →
  get_attrs_dict_loop attr attrs_ (walked ++ rest) !! k
  = match attrs_ !! k with
    | Some w => Some w
    | None => head (omap (λ kls, default ∅ (k_dicts kls !! attr) !! k) walked)
    end.
Proof.
  intros Hwalk Hrest. revert attrs_.
  induction Hwalk as [|kls walked Hname _ IH]; intros attrs_.
  - simpl. destruct Hrest as [->|(base & rest' & -> & Hbase)]; simpl.
    + by destruct (attrs_ !! k).
    + rewrite Hbase. simpl. by destruct (attrs_ !! k).
  - simpl. apply String.eqb_neq in Hname. rewrite Hname.
    rewrite IH, setdefault_items_lookup by apply NoDup_fst_map_to_list.
    rewrite list_to_map_to_list.
    destruct (attrs_ !! k) as [w|]; [done|].
    by destruct (default ∅ (k_dicts kls !! attr) !! k).
Qed.

(** Claim C4.  [get_attrs("aliases", is_list=False)] walks the classes of
    the method-resolution order that come before the class named
    [ToppingForm], most derived first, and gives each key the value of the
    first class of the walk that declares it; it leaves the heap as it is.
    For a chain where [C] declares no alias, its parent [B] declares
    [x -> b_out] and the grandparent [A] declares [x -> a_out], the result
    on an instance of [C] is [x -> b_out]. *)
Theorem get_attrs_aliases_nearest_declaration (self : form) (h : heap) :
  (∀ walked rest,
     mro self = walked ++ rest →
     Forall (λ kls, k_name kls ≠ "ToppingForm") walked →
     (rest = [] ∨ ∃ base rest', rest = base :: rest'
                                ∧ k_name base = "ToppingForm") →
     ∃ m : gmap string string,
       get_attrs self "aliases" false h = Ok (m, h)
       ∧ ∀ k, m !! k
              = head (omap (λ kls, default ∅ (k_dicts kls !! "__aliases__") !! k)
                           walked))
  ∧ (∀ A B C base rest,
       mro self = [C; B; A; base] ++ rest →
       k_name A ≠ "ToppingForm" → k_name B ≠ "ToppingForm" →
       k_name C ≠ "ToppingForm" → k_name base = "ToppingForm" →
       k_dicts A !! "__aliases__" = Some {[ "x" := "a_out" ]} →
       k_dicts B !! "__aliases__" = Some {[ "x" := "b_out" ]} →
       k_dicts C !! "__aliases__" = None →
       get_attrs self "aliases" false h
       = Ok ({[ "x" := "b_out" ]} : gmap string string, h)).
Proof.
  assert (∀ walked rest,
     mro self = walked ++ rest →
     Forall (λ kls, k_name kls ≠ "ToppingForm") walked →
     (rest = [] ∨ ∃ base rest', rest = base :: rest'
                                ∧ k_name base = "ToppingForm") →
     ∀ k, get_attrs_dict_loop "__aliases__" ∅ (mro self) !! k
          = head (omap (λ kls, default ∅ (k_dicts kls !! "__aliases__") !! k)
                       walked)) as Hwalk.
  { intros walked rest -> Hw Hr k.
    by rewrite (get_attrs_dict_loop_lookup _ _ _ _ _ Hw Hr), lookup_empty. }
  split.
  - intros walked rest Hmro Hw Hr. eexists. split; [reflexivity|].
    by apply (Hwalk walked rest).
  - intros A B C base rest Hmro HA HB HC Hbase HdA HdB HdC.
    unfold get_attrs. change (attr_name "aliases") with "__aliases__".
    assert (get_attrs_dict_loop "__aliases__" ∅ (mro self)
            = ({[ "x" := "b_out" ]} : gmap string string)) as ->; [|done].
    apply map_eq. intros k.
    rewrite (Hwalk [C; B; A] (base :: rest)); [ |done| |].
    + simpl. rewrite HdA, HdB, HdC. simpl. rewrite lookup_empty.
      destruct (decide (k = "x")) as [->|Hne].
      * by rewrite !lookup_singleton_eq.
      * by rewrite !lookup_singleton_ne.
    + by repeat constructor.
    + right. by exists base, rest.
Qed.

(** ** Form normaliser *)

Lemma config_or_truthy (cfg : gmap string string) (key fallback : string) :
  str_truthy fallback = true → str_truthy (config_or cfg key fallback) = true.
Proof.
  intros Hf. unfold config_or. destruct (cfg !! key) as [s|]; [|done].
  by destruct (str_truthy s) eqn:Hs.
Qed.

Section parse_fields.
Context (lowers uppers nostrips excludes : loc) (lo up ns ex : list string).
Context (al : gmap string string) (h : heap).
Hypothesis Hlo : h !! lowers = Some lo.
Hypothesis Hup : h !! uppers = Some up.
Hypothesis Hns : h !! nostrips = Some ns.
Hypothesis Hex : h !! excludes = Some ex.

Lemma parse_field_pure (dct : gmap string value) (f : Field.t) :
  parse_field lowers uppers nostrips excludes al dct f h
  = match normalize_fields lo up ns ex al dct [f] with
    | Ok d => Ok (d, h)
    | Raise e => Raise e
    end.
Proof.
  unfold parse_field, normalize_fields, field_skipped, field_value.
  unfold mbind, M_bind, result_bind, load, lift, mret, M_ret.
  rewrite Hex. unfold field_skipped.
  destruct (bool_decide (Field.name f ∈ ex)
            || bool_decide (Field.type f ∈ NON_VALUE_FIELDS)); [done|].
  rewrite Hns.
  set (data := if bool_decide (Field.name f ∉ ns)
                  && negb (Field.type f =? "PasswordField")%string
               then strip_if_str (Field.data f) else Field.data f).
  destruct data; try done; cbv beta; rewrite Hlo;
    (destruct (bool_decide (Field.name f ∈ lo)); [done|]);
    rewrite Hup; by destruct (bool_decide (Field.name f ∈ up)).
Qed.
End parse_fields.

Lemma parse_fields_pure (lowers uppers nostrips excludes : loc)
    (lo up ns ex : list string) (al : gmap string string) (h : heap)
    (dct : gmap string value) (fs : list Field.t) :
  h !! lowers = Some lo → h !! uppers = Some up →
  h !! nostrips = Some ns → h !! excludes = Some ex →
  parse_fields lowers uppers nostrips excludes al dct fs h
  = match normalize_fields lo up ns ex al dct fs with
    | Ok d => Ok (d, h)
    | Raise e => Raise e
    end.
Proof.
  intros Hlo Hup Hns Hex. revert dct.
  induction fs as [|f rest IH]; intros dct; [done|].
  cbn [parse_fields]. unfold mbind at 1, M_bind at 1.
  rewrite (parse_field_pure _ _ _ _ lo up ns ex al h Hlo Hup Hns Hex).
  cbn [normalize_fields]. destruct (field_skipped ex f); [apply IH|].
  destruct (field_value lo up ns f) as [data|e]; [apply IH|done].
Qed.

Lemma parse_form_spec (ctx : context) (self : form)
    (box_wrap use_timestamps : bool) (h : heap) :
  heap_wf self h →
  ∃ h', h ⊆ h'
    ∧ parse_form ctx self box_wrap use_timestamps h
      = match normalize_fields
                (resolved self "lowers" h) (resolved self "uppers" h)
                (resolved self "nostrips" h)
                (resolved self "excludes" h ++ [csrf_name ctx])
                (resolved_aliases self) ∅ (fields self) with
        | Ok dct => Ok (Record_ (stamp use_timestamps (now ctx) dct)
                                (box_wrap && addict ctx), h')
        | Raise e => Raise e
        end.
Proof.
  intros Hwf. unfold parse_form.
  destruct (get_attrs_list_resolved self "lowers" h Hwf)
    as (ℓ1 & h1 & E1 & S1 & N1 & L1).
  pose proof (heap_wf_mono _ _ _ Hwf S1) as Hwf1.
  destruct (get_attrs_list_resolved self "uppers" h1 Hwf1)
    as (ℓ2 & h2 & E2 & S2 & N2 & L2).
  pose proof (heap_wf_mono _ _ _ Hwf1 S2) as Hwf2.
  destruct (get_attrs_list_resolved self "nostrips" h2 Hwf2)
    as (ℓ3 & h3 & E3 & S3 & N3 & L3).
  pose proof (heap_wf_mono _ _ _ Hwf2 S3) as Hwf3.
  destruct (get_attrs_list_resolved self "excludes" h3 Hwf3)
    as (ℓ4 & h4 & E4 & S4 & N4 & L4).
  assert (h ⊆ h2) as S02 by (by etrans).
  assert (h ⊆ h3) as S03 by (by etrans).
  rewrite (resolved_mono self _ h h1 Hwf S1) in L2.
  rewrite (resolved_mono self _ h h2 Hwf S02) in L3.
  rewrite (resolved_mono self _ h h3 Hwf S03) in L4.
  set (csrf := csrf_name ctx).
  set (h5 := <[ℓ4 := resolved self "excludes" h ++ [csrf]]> h4).
  exists h5. split.
  { apply insert_subseteq_r; [|by etrans].
    destruct (h !! ℓ4) as [l|] eqn:Hl; [|done].
    apply (lookup_weaken _ _ _ _ Hl) in S03. congruence. }
  rewrite (M_bind_ok _ _ _ _ _ E1), (M_bind_ok _ _ _ _ _ E2).
  rewrite (M_bind_ok _ _ _ _ _ E3), (M_bind_ok _ _ _ _ _ E4).
  erewrite M_bind_ok; [|reflexivity].
  fold (csrf_name ctx). fold csrf.
  assert (str_truthy csrf = true) as -> by (by apply config_or_truthy).
  rewrite (M_bind_ok _ _ _ _ _ (append_ok _ _ _ _ L4)). fold h5.
  assert (h5 !! ℓ4 = Some (resolved self "excludes" h ++ [csrf])) as L4'
    by apply lookup_insert_eq.
  assert (∀ ℓ l, h3 !! ℓ = Some l → h5 !! ℓ = Some l) as Hkeep.
  { intros ℓ l Hl. unfold h5. rewrite lookup_insert_ne by congruence.
    by apply (lookup_weaken h3 h4). }
  pose proof (Hkeep ℓ3 _ L3) as L3'.
  pose proof (Hkeep ℓ2 _ (lookup_weaken _ _ _ _ L2 S3)) as L2'.
  pose proof (Hkeep ℓ1 _ (lookup_weaken _ _ _ _
                 (lookup_weaken _ _ _ _ L1 S2) S3)) as L1'.
  unfold mbind at 1, M_bind at 1.
  rewrite (parse_fields_pure _ _ _ _ _ _ _ _ _ _ _ _ L1' L2' L3' L4').
  unfold resolved_aliases.
  by destruct (normalize_fields _ _ _ _ _ _ _).
Qed.

Section normalize_fields.
Context (lo up ns ex : list string) (al : gmap string string).

Local Abbreviation out f := (default (Field.name f) (al !! Field.name f)).
Local Abbreviation run := (normalize_fields lo up ns ex al).

Lemma normalize_fields_app (dct : gmap string value) (fs gs : list Field.t) :
  run dct (fs ++ gs) = run dct fs ≫= λ d, run d gs.
Proof.
  revert dct. induction fs as [|f fs IH]; intros dct; [done|].
  simpl. destruct (field_skipped ex f); [apply IH|].
  destruct (field_value lo up ns f) as [v|e]; [apply IH|done].
Qed.

Lemma normalize_fields_drop_skipped (dct : gmap string value)
    (fs : list Field.t) :
  run dct (filter (λ f, field_skipped ex f = false) fs) = run dct fs.
Proof.
  revert dct. induction fs as [|f fs IH]; intros dct; [done|].
  rewrite filter_cons. simpl. case_decide as Hs.
  - simpl. rewrite Hs.
    destruct (field_value lo up ns f) as [v|e]; [apply IH|done].
  - apply not_false_is_true in Hs. rewrite Hs. apply IH.
Qed.

Lemma normalize_fields_provenance (dct d : gmap string value)
    (fs : list Field.t) (key : string) (v : value) :
  run dct fs = Ok d → d !! key = Some v →
  dct !! key = Some v
  ∨ ∃ f, f ∈ fs ∧ field_skipped ex f = false ∧ out f = key.
Proof.
  revert dct. induction fs as [|f fs IH]; intros dct Hrun Hv.
  { left. simpl in Hrun. congruence. }
  simpl in Hrun. destruct (field_skipped ex f) eqn:Hs.
  - destruct (IH dct Hrun Hv) as [?|(g & Hg & ? & ?)]; [by left|].
    right. exists g. split; [by apply list_elem_of_further|done].
  - destruct (field_value lo up ns f) as [w|e]; [|done]. simpl in Hrun.
    destruct (IH _ Hrun Hv) as [Hin|(g & Hg & ? & ?)].
    + destruct (decide (out f = key)) as [Hk|Hk].
      * right. exists f. split; [apply list_elem_of_here|done].
      * left. by rewrite lookup_insert_ne in Hin.
    + right. exists g. split; [by apply list_elem_of_further|done].
Qed.

Lemma normalize_fields_untouched (dct d : gmap string value)
    (fs : list Field.t) (key : string) :
  run dct fs = Ok d →
  (∀ g, g ∈ fs → field_skipped ex g = false → out g ≠ key) →
  d !! key = dct !! key.
Proof.
  revert dct. induction fs as [|f fs IH]; intros dct Hrun Hne.
  { simpl in Hrun. congruence. }
  assert (∀ g, g ∈ fs → field_skipped ex g = false → out g ≠ key) as Hne'.
  { intros g Hg. apply Hne. by apply list_elem_of_further. }
  simpl in Hrun. destruct (field_skipped ex f) eqn:Hs; [by apply IH|].
  destruct (field_value lo up ns f) as [w|e]; [|done]. simpl in Hrun.
  rewrite (IH _ Hrun Hne'). apply lookup_insert_ne.
  apply Hne; [apply list_elem_of_here|done].
Qed.

Lemma normalize_fields_keeps_keys (dct d : gmap string value)
    (fs : list Field.t) (key : string) :
  run dct fs = Ok d → is_Some (dct !! key) → is_Some (d !! key).
Proof.
  revert dct. induction fs as [|f fs IH]; intros dct Hrun Hin.
  { simpl in Hrun. congruence. }
  simpl in Hrun. destruct (field_skipped ex f); [by apply (IH dct)|].
  destruct (field_value lo up ns f) as [w|e]; [|done]. simpl in Hrun.
  apply (IH _ Hrun). rewrite lookup_insert_is_Some.
  destruct (decide (out f = key)); [by left|by right].
Qed.

Lemma normalize_fields_at (dct d : gmap string value)
    (pre post : list Field.t) (f : Field.t) :
  run dct (pre ++ f :: post) = Ok d →
  field_skipped ex f = false →
  ∃ v, field_value lo up ns f = Ok v
       ∧ is_Some (d !! out f)
       ∧ ((∀ g, g ∈ post → field_skipped ex g = false → out g ≠ out f) →
          d !! out f = Some v).
Proof.
  intros Hrun Hs. rewrite normalize_fields_app in Hrun.
  destruct (run dct pre) as [d1|e]; [|done]. simpl in Hrun.
  rewrite Hs in Hrun.
  destruct (field_value lo up ns f) as [v|e]; [|done]. simpl in Hrun.
  exists v. split; [done|]. split.
  - apply (normalize_fields_keeps_keys _ _ _ _ Hrun).
    rewrite lookup_insert_eq. by eexists.
  - intros Hne. rewrite (normalize_fields_untouched _ _ _ _ Hrun Hne).
    apply lookup_insert_eq.
Qed.

Lemma normalize_fields_total (dct : gmap string value) (fs : list Field.t) :
  (∀ f, f ∈ fs → field_skipped ex f = false →
        ∃ v, field_value lo up ns f = Ok v) →
  ∃ d, run dct fs = Ok d.
Proof.
  revert dct. induction fs as [|f fs IH]; intros dct Hok; [by eexists|].
  assert (∀ g, g ∈ fs → field_skipped ex g = false →
               ∃ v, field_value lo up ns g = Ok v) as Hok'.
  { intros g Hg. apply Hok. by apply list_elem_of_further. }
  simpl. destruct (field_skipped ex f) eqn:Hs; [by apply IH|].
  destruct (Hok f (list_elem_of_here _ _) Hs) as [v ->]. simpl.
  by apply IH.
Qed.
End normalize_fields.

Lemma field_value_absent (lo up ns : list string) (f : Field.t) :
  Field.data f = VNone → field_value lo up ns f = Ok VNone.
Proof.
  intros Hd. unfold field_value. rewrite Hd. simpl.
  by destruct (_ && _).
Qed.

Lemma field_value_returns (lo up ns : list string) (f : Field.t) :
  (Field.name f ∈ lo ∨ Field.name f ∈ up →
   Field.data f = VNone ∨ ∃ s, Field.data f = VStr s) →
  ∃ v, field_value lo up ns f = Ok v.
Proof.
  intros Hty. unfold field_value.
  destruct (decide (Field.name f ∈ lo ∨ Field.name f ∈ up)) as [Hc|Hc].
  - destruct (Hty Hc) as [->|[s ->]]; simpl.
    + destruct (_ && _); by eexists.
    + destruct (_ && _); simpl; repeat case_bool_decide; by eexists.
  - assert (bool_decide (Field.name f ∈ lo) = false) as ->.
    { apply bool_decide_eq_false. tauto. }
    assert (bool_decide (Field.name f ∈ up) = false) as ->.
    { apply bool_decide_eq_false. tauto. }
    destruct (if _ && _ then _ else _); by eexists.
Qed.

Lemma field_skipped_spec (ctx : context) (self : form) (h : heap)
    (f : Field.t) :
  field_skipped (resolved self "excludes" h ++ [csrf_name ctx]) f = true
  ↔ skipped ctx self h f.
Proof.
  unfold field_skipped, skipped.
  rewrite orb_true_iff, !bool_decide_eq_true, elem_of_app,
    list_elem_of_singleton. tauto.
Qed.

Lemma field_kept_spec (ctx : context) (self : form) (h : heap)
    (f : Field.t) :
  field_skipped (resolved self "excludes" h ++ [csrf_name ctx]) f = false
  ↔ ¬ skipped ctx self h f.
Proof.
  rewrite <- field_skipped_spec. by destruct (field_skipped _ f).
Qed.

Lemma stamp_lookup (ts : bool) (t : Z) (dct : gmap string value)
    (key : string) :
  (ts = true → key ≠ "created_at" ∧ key ≠ "updated_at") →
  stamp ts t dct !! key = dct !! key.
Proof.
  intros Hk. unfold stamp. destruct ts; [|done].
  destruct (Hk eq_refl). by rewrite !lookup_insert_ne.
Qed.

Lemma stamp_lookup_Some (ts : bool) (t : Z) (dct : gmap string value)
    (key : string) (v : value) :
  stamp ts t dct !! key = Some v →
  dct !! key = Some v ∨ (ts = true ∧ (key = "created_at" ∨ key = "updated_at")).
Proof.
  unfold stamp. destruct ts; [|by left].
  destruct (decide (key = "updated_at")) as [->|?]; [right; tauto|].
  destruct (decide (key = "created_at")) as [->|?]; [right; tauto|].
  rewrite !lookup_insert_ne by done. by left.
Qed.

Lemma stamp_is_Some (ts : bool) (t : Z) (dct : gmap string value)
    (key : string) :
  is_Some (dct !! key) → is_Some (stamp ts t dct !! key).
Proof.
  unfold stamp. destruct ts; [|done]. rewrite !lookup_insert_is_Some.
  intros Hin. destruct (decide ("updated_at" = key)); [by left|right].
  split; [done|]. destruct (decide ("created_at" = key)); [by left|by right].
Qed.

(** Claim C5.  Every entry of the mapping returned by [parse_form] is the
    entry of a field that is not excluded, is not the anti-forgery token
    field and is not a submit or file field (or is a timestamp, when asked
    for): a field that is passed over has no entry under its name unless a
    kept field is stored under that name through an alias, and the mapping
    is the one obtained from the form without the fields passed over. *)
Theorem parse_form_entries_of_kept_fields (ctx : context) (self : form)
    (box_wrap use_timestamps : bool) (h h' : heap) (r : record) :
  heap_wf self h →
  parse_form ctx self box_wrap use_timestamps h = Ok (r, h') →
  (∀ key v, entries r !! key = Some v →
     (∃ f, f ∈ fields self ∧ ¬ skipped ctx self h f
           ∧ output_key self f = key)
     ∨ (use_timestamps = true ∧ (key = "created_at" ∨ key = "updated_at")))
  ∧ (∀ f, f ∈ fields self → skipped ctx self h f →
       (∀ g, g ∈ fields self → ¬ skipped ctx self h g →
             output_key self g ≠ Field.name f) →
       (use_timestamps = true →
        Field.name f ≠ "created_at" ∧ Field.name f ≠ "updated_at") →
       entries r !! Field.name f = None)
  ∧ (∃ h'', parse_form ctx
              (Form (mro self)
                 (filter (λ f, ¬ skipped ctx self h f) (fields self)))
              box_wrap use_timestamps h = Ok (r, h'')).
Proof.
  intros Hwf Hrun.
  destruct (parse_form_spec ctx self box_wrap use_timestamps h Hwf)
    as (h1 & _ & Hspec).
  rewrite Hrun in Hspec.
  destruct (normalize_fields _ _ _ _ _ _ _) as [dct|e] eqn:Hn; [|done].
  injection Hspec as -> ->. simpl.
  assert (∀ key v, stamp use_timestamps (now ctx) dct !! key = Some v →
     (∃ f, f ∈ fields self ∧ ¬ skipped ctx self h f
           ∧ output_key self f = key)
     ∨ (use_timestamps = true ∧ (key = "created_at" ∨ key = "updated_at")))
    as Hprov.
  { intros key v [Hv|Hts]%stamp_lookup_Some; [|by right].
    destruct (normalize_fields_provenance _ _ _ _ _ _ _ _ _ _ Hn Hv)
      as [Hemp|(f & Hf & Hk%field_kept_spec & Hout)].
    - by rewrite lookup_empty in Hemp.
    - left. by exists f. }
  split; [exact Hprov|]. split.
  - intros f Hf Hskip Hne Hts.
    destruct (stamp use_timestamps (now ctx) dct !! Field.name f) as [v|] eqn:Hv;
      [|done].
    destruct (Hprov _ _ Hv) as [(g & Hg & Hk & Hout)|[Ht [Hc|Hc]]].
    + by destruct (Hne g Hg Hk).
    + by destruct (Hts Ht).
    + by destruct (Hts Ht).
  - set (self' := Form (mro self) _).
    destruct (parse_form_spec ctx self' box_wrap use_timestamps h Hwf)
      as (h2 & _ & Hspec').
    exists h2. rewrite Hspec'.
    change (resolved self' ?k h) with (resolved self k h).
    change (resolved_aliases self') with (resolved_aliases self).
    change (fields self')
      with (filter (λ f, ¬ skipped ctx self h f) (fields self)).
    rewrite <- (list_filter_iff _ _ _ (field_kept_spec ctx self h)).
    by rewrite normalize_fields_drop_skipped, Hn.
Qed.

(** Claim C9.  A field that [parse_form] does not pass over gets an entry
    also when its value is absent: provided the fields to be lowercased or
    uppercased hold strings or nothing, [parse_form] returns, the output
    key of the field is in the mapping, and it is mapped to [None] unless a
    later field or a timestamp is stored under the same key.  The field may
    itself be listed for lowercasing: the case change is not attempted on
    an absent value. *)
Theorem parse_form_stores_absent_value (ctx : context) (self : form)
    (box_wrap use_timestamps : bool) (h : heap)
    (pre post : list Field.t) (f : Field.t) :
  heap_wf self h →
  fields self = pre ++ f :: post →
  ¬ skipped ctx self h f →
  Field.data f = VNone →
  (∀ g, g ∈ fields self → ¬ skipped ctx self h g →
        Field.name g ∈ resolved self "lowers" h
        ∨ Field.name g ∈ resolved self "uppers" h →
        Field.data g = VNone ∨ ∃ s, Field.data g = VStr s) →
  ∃ r h', parse_form ctx self box_wrap use_timestamps h = Ok (r, h')
    ∧ is_Some (entries r !! output_key self f)
    ∧ ((∀ g, g ∈ post → ¬ skipped ctx self h g →
             output_key self g ≠ output_key self f) →
       (use_timestamps = true →
        output_key self f ≠ "created_at" ∧ output_key self f ≠ "updated_at") →
       entries r !! output_key self f = Some VNone).
Proof.
  intros Hwf Hfs Hkept Hnone Hty.
  destruct (parse_form_spec ctx self box_wrap use_timestamps h Hwf)
    as (h1 & _ & Hspec).
  destruct (normalize_fields_total
              (resolved self "lowers" h) (resolved self "uppers" h)
              (resolved self "nostrips" h)
              (resolved self "excludes" h ++ [csrf_name ctx])
              (resolved_aliases self) ∅ (fields self)) as [dct Hn].
  { intros g Hg Hk%field_kept_spec. apply field_value_returns. eauto. }
  rewrite Hn in Hspec. eexists _, h1. split; [exact Hspec|]. simpl.
  rewrite Hfs in Hn.
  apply field_kept_spec in Hkept.
  destruct (normalize_fields_at _ _ _ _ _ _ _ _ _ _ Hn Hkept)
    as (v & Hv & Hsome & Hlast).
  rewrite field_value_absent in Hv by done. injection Hv as <-.
  split; [by apply stamp_is_Some|].
  intros Hne Hts. rewrite stamp_lookup by done. apply Hlast.
  intros g Hg Hk%field_kept_spec. by apply Hne.
Qed.

(** Claim C7.  Without timestamps, a second call of [parse_form] on the
    same form, with the same configuration and in the state that the first
    call left, returns the mapping of the first call, whatever the clock
    reads: the first call changes no list object that existed before it,
    and the second resolves the configuration anew. *)
Theorem parse_form_twice (ctx ctx' : context) (self : form) (box_wrap : bool)
    (h h1 : heap) (r : record) :
  heap_wf self h →
  config ctx' = config ctx → addict ctx' = addict ctx →
  parse_form ctx self box_wrap false h = Ok (r, h1) →
  (∀ ℓ, ℓ ∈ dom h → h1 !! ℓ = h !! ℓ)
  ∧ ∃ h2, parse_form ctx' self box_wrap false h1 = Ok (r, h2).
Proof.
  intros Hwf Hcfg Hadd Hrun.
  destruct (parse_form_spec ctx self box_wrap false h Hwf)
    as (h1' & Hsub & Hspec).
  rewrite Hrun in Hspec.
  destruct (normalize_fields _ _ _ _ _ _ _) as [dct|e] eqn:Hn; [|done].
  injection Hspec as -> ->. split.
  - intros ℓ [l Hl]%elem_of_dom. rewrite Hl.
    by apply (lookup_weaken h h1').
  - pose proof (heap_wf_mono _ _ _ Hwf Hsub) as Hwf1.
    destruct (parse_form_spec ctx' self box_wrap false h1' Hwf1)
      as (h2 & _ & Hspec').
    exists h2. rewrite Hspec'.
    rewrite !(resolved_mono self _ h h1') by done.
    unfold csrf_name. rewrite Hcfg. fold (csrf_name ctx).
    by rewrite Hn, Hadd.
Qed.

Lemma sample_heap_wf : heap_wf sample_form sample_heap.
Proof.
  intros kls attr ℓ Hk Hℓ.
  assert (ℓ ∈ [1; 2; 3; 4; 5; 6]%positive) as Hin.
  { repeat (apply elem_of_cons in Hk as [->|Hk]);
      [simpl in Hℓ..|by apply not_elem_of_nil in Hk];
      repeat (apply lookup_insert_Some in Hℓ as [[_ <-]|[_ Hℓ]];
              [by apply (bool_decide_unpack _)|]);
      first [ by rewrite lookup_empty in Hℓ
            | apply lookup_singleton_Some in Hℓ as [_ <-];
              by apply (bool_decide_unpack _) ]. }
  apply elem_of_dom.
  repeat (apply elem_of_cons in Hin as [->|Hin]; [by eexists|]).
  by apply not_elem_of_nil in Hin.
Qed.

Lemma parse_form_entries_of_kept_fields_witness :
  ∃ r h', parse_form sample_context sample_form false false sample_heap
          = Ok (r, h')
    ∧ ∀ key v, entries r !! key = Some v →
        (∃ f, f ∈ fields sample_form
              ∧ ¬ skipped sample_context sample_form sample_heap f
              ∧ output_key sample_form f = key)
        ∨ (false = true ∧ (key = "created_at" ∨ key = "updated_at")).
Proof.
  destruct (parse_form sample_context sample_form false false sample_heap)
    as [[r h']|e] eqn:Hrun.
  - exists r, h'. split; [reflexivity|].
    exact (proj1 (parse_form_entries_of_kept_fields sample_context sample_form
                    false false sample_heap h' r sample_heap_wf Hrun)).
  - vm_compute in Hrun. discriminate Hrun.
Defined.

Lemma parse_form_stores_absent_value_witness :
  ∃ r h', parse_form sample_context sample_form false false sample_heap
          = Ok (r, h')
    ∧ entries r !! "age" = Some VNone.
Proof.
  destruct (parse_form_stores_absent_value sample_context sample_form
              false false sample_heap
              (take 3 (fields sample_form)) (drop 4 (fields sample_form))
              sample_age sample_heap_wf eq_refl)
    as (r & h' & Hrun & _ & Hnone).
  - apply (bool_decide_unpack _). vm_compute. reflexivity.
  - reflexivity.
  - intros g Hg Hkept _.
    repeat (apply elem_of_cons in Hg as [->|Hg];
            [first [ by left | right; by eexists
                   | exfalso; apply Hkept; right; right;
                     by apply (bool_decide_unpack _) ] |]).
    by apply not_elem_of_nil in Hg.
  - exists r, h'. split; [exact Hrun|]. apply Hnone.
    + intros g Hg Hkept. exfalso. apply Hkept.
      repeat (apply elem_of_cons in Hg as [->|Hg];
              [by apply (bool_decide_unpack _)|]).
      destruct (not_elem_of_nil g Hg).
    + discriminate.
Defined.

Lemma parse_form_twice_witness :
  ∃ r h1, parse_form sample_context sample_form false false sample_heap
          = Ok (r, h1)
    ∧ ∃ h2, parse_form (Context_ ∅ 1 false) sample_form false false h1
            = Ok (r, h2).
Proof.
  destruct (parse_form sample_context sample_form false false sample_heap)
    as [[r h1]|e] eqn:Hrun.
  - exists r, h1. split; [reflexivity|].
    exact (proj2 (parse_form_twice sample_context (Context_ ∅ 1 false)
                    sample_form false sample_heap h1 r sample_heap_wf
                    eq_refl eq_refl Hrun)).
  - vm_compute in Hrun. discriminate Hrun.
Defined.

(** * Further properties *)

Section required_if_more.
Context {ext : Externals}.

Lemma check_step_shift (form_ : form) (field : Field.t) (n : nat) (c : check) :
  check_step form_ field n c
  = match check_step form_ field 0 c with
    | Ok k => Ok (n + k)
    | Raise e => Raise e
    end.
Proof.
  unfold check_step. destruct c as [[dep_name op_] val].
  destruct (form_getattr form_ dep_name) as [dep|e]; [|done]. simpl.
  destruct (truthy _ && str_truthy op_).
  - destruct (operator_attr op_) as [func|].
    + destruct (func _ val) as [r|e]; [|done]. simpl.
      destruct (truthy r); simpl; f_equal; lia.
    + destruct (method_call _ op_ val) as [r|e]; [|done]. simpl.
      destruct (truthy r); simpl; f_equal; lia.
  - simpl. f_equal. lia.
Qed.

Lemma check_step_bound (form_ : form) (field : Field.t) (c : check) (k : nat) :
  check_step form_ field 0 c = Ok k → k = 0 ∨ k = 1.
Proof.
  unfold check_step. destruct c as [[dep_name op_] val].
  destruct (form_getattr form_ dep_name) as [dep|e]; [|done]. simpl.
  destruct (truthy _ && str_truthy op_).
  - destruct (operator_attr op_) as [func|].
    + destruct (func _ val) as [r|e]; [|done]. simpl.
      destruct (truthy r); intros [= <-]; tauto.
    + destruct (method_call _ op_ val) as [r|e]; [|done]. simpl.
      destruct (truthy r); intros [= <-]; tauto.
  - intros [= <-]. tauto.
Qed.

Lemma check_loop_count (form_ : form) (field : Field.t)
    (cs : list check) (n : nat) :
  Forall (λ c, ∃ k, check_step form_ field 0 c = Ok k) cs →
  ∃ m, check_loop form_ field cs n = Ok (n + m)
       ∧ m ≤ length cs
       ∧ (m = length cs ↔ Forall (check_counts form_ field) cs).
Proof.
  intros Hok. revert n. induction Hok as [|c cs [k Hk] _ IH]; intros n.
  { exists 0. simpl. split; [f_equal; lia|]. split; [done|]. split; constructor. }
  simpl. rewrite check_step_shift, Hk. simpl.
  destruct (IH (n + k)) as (m & -> & Hle & Hall).
  exists (k + m). split; [f_equal; lia|].
  destruct (check_step_bound _ _ _ _ Hk) as [->| ->].
  - split; [simpl; lia|]. split.
    + simpl. lia.
    + intros [Hc _]%Forall_cons. unfold check_counts in Hc. congruence.
  - split; [simpl; lia|]. rewrite Forall_cons. unfold check_counts at 1.
    simpl. split.
    + intros [= Hm]. split; [done|]. by apply Hall.
    + intros [_ Hm%Hall]. by rewrite Hm.
Qed.

(** When the target is empty and no check raises, the validator fails the
    validation exactly when every check of the effective list counts (the
    checks are combined by "and"); if one check does not count, the target
    passes. *)
Theorem check_field_all_checks (depend_name op : string) (val : value)
    (checks : list check) (error_msg : string) (form_ : form)
    (field : Field.t) :
  truthy (strip_if_str (Field.data field)) = false →
  Forall (λ c, ∃ k, check_step form_ field 0 c = Ok k)
         (effective_checks depend_name op val checks) →
  (Forall (check_counts form_ field)
          (effective_checks depend_name op val checks) →
   check_field depend_name op val checks error_msg form_ field
   = Raise (ValidationError error_msg))
  ∧ (¬ Forall (check_counts form_ field)
              (effective_checks depend_name op val checks) →
     check_field depend_name op val checks error_msg form_ field = Ok tt).
Proof.
  intros Hempty Hok. unfold check_field. rewrite Hempty.
  destruct (check_loop_count form_ field _ 0 Hok) as (m & -> & Hle & Hall).
  simpl. split.
  - intros Hm%Hall. by rewrite Hm, Nat.eqb_refl.
  - intros Hnot. destruct (Nat.eqb_spec m (length (effective_checks depend_name op val checks)))
      as [Hm|Hm]; [|done].
    by apply Hall in Hm.
Qed.

Lemma check_step_idle (form_ : form) (field : Field.t) (n : nat)
    (dep_name op_ : string) (val : value) (dep : Field.t) :
  form_getattr form_ dep_name = Ok dep →
  op_ = "" ∨ truthy (Field.data dep) = false →
  check_step form_ field n (dep_name, op_, val) = Ok n.
Proof.
  intros Hdep Hidle. unfold check_step. rewrite Hdep. simpl.
  assert (truthy match Field.data dep with
                 | VStr s =>
                     if negb (Field.type field =? "PasswordField")%string
                     then VStr (strip s) else Field.data dep
                 | _ => Field.data dep
                 end && str_truthy op_ = false) as ->; [|done].
  destruct Hidle as [->|Hfalse]; [apply andb_false_r|].
  apply andb_false_intro1.
  destruct (Field.data dep) as [| | |s| | | |]; try done.
  simpl in Hfalse. apply str_truthy_false in Hfalse as ->.
  by destruct (negb _).
Qed.

(** A check whose operator name is empty, or whose dependency field holds
    a falsy value, never counts: as soon as the effective list has such a
    check (and no check raises) the validator passes.  In particular
    [required_if(name)] with the default empty operator never requires
    anything. *)
Theorem check_field_idle_check (depend_name op : string) (val : value)
    (checks : list check) (error_msg : string) (form_ : form)
    (field : Field.t) :
  Forall (λ c, ∃ k, check_step form_ field 0 c = Ok k)
         (effective_checks depend_name op val checks) →
  Exists (λ c, ∃ dep, form_getattr form_ c.1.1 = Ok dep
                      ∧ (c.1.2 = "" ∨ truthy (Field.data dep) = false))
         (effective_checks depend_name op val checks) →
  check_field depend_name op val checks error_msg form_ field = Ok tt.
Proof.
  intros Hok Hidle. unfold check_field.
  destruct (truthy (strip_if_str (Field.data field))); [done|].
  destruct (check_loop_count form_ field _ 0 Hok) as (m & -> & Hle & Hall).
  simpl. destruct (Nat.eqb_spec m (length (effective_checks depend_name op val checks)))
    as [Hm|Hm]; [|done].
  apply Hall in Hm. exfalso.
  apply Exists_exists in Hidle as ([[dep_name op_] v] & Hin & dep & Hdep & Hc).
  rewrite Forall_forall in Hm. specialize (Hm _ Hin).
  unfold check_counts in Hm.
  rewrite (check_step_idle _ _ _ _ _ _ _ Hdep Hc) in Hm. discriminate.
Qed.

Lemma check_loop_missing (form_ : form) (field : Field.t)
    (pre post : list check) (dep_name op_ : string) (val : value) (n : nat) :
  Forall (λ c, ∃ k, check_step form_ field 0 c = Ok k) pre →
  form_getattr form_ dep_name = Raise AttributeError →
  check_loop form_ field (pre ++ (dep_name, op_, val) :: post) n
  = Raise AttributeError.
Proof.
  intros Hpre Hmiss. revert n. induction Hpre as [|c pre [k Hk] _ IH]; intros n.
  - simpl. unfold check_step. by rewrite Hmiss.
  - simpl. rewrite check_step_shift, Hk. simpl. apply IH.
Qed.

(** A check that names a field the form does not have makes the validator
    fail with the attribute-not-found error, when the target is empty and
    the checks before it do not raise: the error is neither swallowed nor
    turned into a validation failure. *)
Theorem check_field_missing_dependency (depend_name op : string) (val : value)
    (checks : list check) (error_msg : string) (form_ : form)
    (field : Field.t) (pre post : list check)
    (dep_name op_ : string) (v : value) :
  truthy (strip_if_str (Field.data field)) = false →
  effective_checks depend_name op val checks
  = pre ++ (dep_name, op_, v) :: post →
  Forall (λ c, ∃ k, check_step form_ field 0 c = Ok k) pre →
  (∀ f, f ∈ fields form_ → Field.name f ≠ dep_name) →
  check_field depend_name op val checks error_msg form_ field
  = Raise AttributeError.
Proof.
  intros Hempty Hcs Hpre Hmiss. unfold check_field. rewrite Hempty, Hcs.
  by rewrite (check_loop_missing _ _ _ _ _ _ _ _ Hpre
                (form_getattr_missing _ _ Hmiss)).
Qed.
End required_if_more.

(** ** Field classifier, continued *)

Lemma filter_fields_any_elem (self : form) (ft : field_types) (c : bool)
    (n : string) :
  n ∈ filter_fields self ft c ↔
  ∃ f, f ∈ fields self ∧ Field.name f = n
       ∧ if c then Field.type f ∈ tags_of ft else Field.type f ∉ tags_of ft.
Proof. destruct ft as [t|ts]; apply filter_fields_elem. Qed.

(** [filter_fields] keeps the declaration order: each result is a
    subsequence of the field names, and the results for [contains] true and
    false together are a rearrangement of all the names, so their lengths
    add up to the number of fields. *)
Theorem filter_fields_order (self : form) (ft : field_types) :
  (∀ contains,
     filter_fields self ft contains `sublist_of` Field.name <$> fields self)
  ∧ filter_fields self ft true ++ filter_fields self ft false
    ≡ₚ Field.name <$> fields self
  ∧ length (filter_fields self ft true) + length (filter_fields self ft false)
    = length (fields self).
Proof.
  assert (filter_fields self ft true ++ filter_fields self ft false
          ≡ₚ Field.name <$> fields self) as Hperm.
  { unfold filter_fields. rewrite <- fmap_app.
    apply fmap_Permutation, filter_app_complement. }
  split; [|split; [exact Hperm|]].
  - intros contains. unfold filter_fields.
    destruct contains; apply fmap_sublist, sublist_filter.
  - apply Permutation_length in Hperm.
    by rewrite length_app, length_fmap in Hperm.
Qed.

(** The select, radio, boolean, file and date views only hold names that
    [html_fields] holds too. *)
Theorem typed_views_in_html_fields (self : form) (n : string) :
  n ∈ select_fields self ∨ n ∈ radio_fields self ∨ n ∈ boolean_fields self
  ∨ n ∈ file_fields self ∨ n ∈ date_fields self →
  n ∈ html_fields self.
Proof.
  unfold select_fields, radio_fields, boolean_fields, file_fields,
    date_fields, html_fields.
  rewrite !filter_fields_any_elem. simpl.
  intros Hin.
  assert (∃ f, f ∈ fields self ∧ Field.name f = n
               ∧ Field.type f ∈ ["SelectField"; "SelectMultipleField";
                    "RadioField"; "BooleanField"; "FileField";
                    "MultipleFileField"; "DateField"; "DateTimeField";
                    "DateTimeLocalField"]) as (f & Hf & Hn & Ht).
  { destruct Hin as [H|[H|[H|[H|H]]]]; destruct H as (f & Hf & Hn & Ht);
      exists f; (split; [done|]); (split; [done|]);
      revert Ht; rewrite !elem_of_cons, !elem_of_nil; tauto. }
  exists f. split; [done|]. split; [done|].
  intros Hnon. revert Ht Hnon. unfold NON_HTML_FIELDS.
  rewrite !elem_of_cons, !elem_of_nil.
  intros Ht Hnon.
  repeat (destruct Ht as [Ht|Ht];
          [rewrite Ht in Hnon;
           repeat (destruct Hnon as [Hnon|Hnon]; [discriminate Hnon|]);
           done|]).
  done.
Qed.

(** On a form with distinct field names, two calls of [filter_fields] for
    tag collections without a common tag return lists without a common
    name. *)
Theorem filter_fields_disjoint_tags (self : form) (ft1 ft2 : field_types)
    (n : string) :
  NoDup (Field.name <$> fields self) →
  (∀ t, t ∈ tags_of ft1 → t ∉ tags_of ft2) →
  n ∈ filter_fields self ft1 true → n ∉ filter_fields self ft2 true.
Proof.
  intros Hnd Hdis [f (Hf & Hn & Ht)]%filter_fields_any_elem
                  [g (Hg & Hm & Hu)]%filter_fields_any_elem.
  assert (f = g) as -> by (apply (field_name_inj self); [done..|congruence]).
  by apply (Hdis (Field.type g)).
Qed.

Lemma filter_fields_disjoint_tags_witness :
  "avatar" ∉ submit_fields sample_form.
Proof.
  apply (filter_fields_disjoint_tags sample_form
           (Types ["FileField"; "MultipleFileField"]) (OneType "SubmitField")).
  - exact sample_form_names.
  - intros t Ht. simpl in *. revert Ht.
    rewrite !elem_of_cons, !elem_of_nil.
    intros [->|[->|[]]] [Heq|[]]; discriminate Heq.
  - by apply (bool_decide_unpack _).
Defined.

Lemma typed_views_in_html_fields_witness : "avatar" ∈ html_fields sample_form.
Proof.
  apply typed_views_in_html_fields. do 3 right. left.
  by apply (bool_decide_unpack _).
Defined.

(** ** File extractor, continued *)

Section files_more.
Context {ext : Externals}.

Local Abbreviation sane fo := (secure_filename (FileStorage.filename fo)).

(** The state of the loop of [get_files] after the entries [l], told by
    the sanitized names. *)
Lemma get_files_loop_names (l : list FileStorage.t) :
  ∃ files names,
    foldl get_files_step ([], ∅) l = (files, names)
    ∧ (∀ s, s ∈ names ↔
            ∃ fo, fo ∈ l ∧ FileStorage.filename fo ≠ "" ∧ sane fo = s)
    ∧ (∀ s, s ∈ FileInfo.secure_filename <$> files ↔ s ∈ names)
    ∧ NoDup (FileInfo.secure_filename <$> files)
    ∧ Forall (λ info, ∃ fo, fo ∈ l ∧ FileStorage.filename fo ≠ ""
                            ∧ info = get_file fo) files.
Proof.
  induction l as [|fo l IH] using rev_ind.
  { exists [], ∅. split; [done|]. split; [|split; [|split; constructor]].
    - intros s. split; [by intros ?%not_elem_of_empty|].
      intros (fo & Hfo & _). by apply not_elem_of_nil in Hfo.
    - intros s. simpl. split; [by intros ?%not_elem_of_nil|].
      by intros ?%not_elem_of_empty. }
  destruct IH as (files & names & Hrun & Hnames & Hsame & Hnd & Hfrom).
  rewrite foldl_app, Hrun. simpl. rewrite file_test.
  assert (Forall (λ info, ∃ fo', fo' ∈ l ++ [fo]
                                 ∧ FileStorage.filename fo' ≠ ""
                                 ∧ info = get_file fo') files) as Hfrom'.
  { eapply Forall_impl; [exact Hfrom|]. intros info (fo' & Hin & Hn & ->).
    exists fo'. split; [|done]. apply elem_of_app. by left. }
  destruct (str_truthy (FileStorage.filename fo)) eqn:Hname.
  - apply str_truthy_spec in Hname.
    assert (∀ s, s ∈ names ∪ {[sane fo]} ↔
              ∃ fo', fo' ∈ l ++ [fo] ∧ FileStorage.filename fo' ≠ ""
                     ∧ sane fo' = s) as Hnames'.
    { intros s. rewrite elem_of_union, elem_of_singleton, Hnames. split.
      - intros [(fo' & Hin & Hn & Hs)| ->].
        + exists fo'. split; [apply elem_of_app; by left|done].
        + exists fo. split; [|done]. apply elem_of_app. right.
          by apply list_elem_of_singleton.
      - intros (fo' & [Hin| ->%list_elem_of_singleton]%elem_of_app & Hn & Hs).
        + left. by exists fo'.
        + by right. }
    case_bool_decide as Hnew.
    + exists (files ++ [get_file fo]), (names ∪ {[sane fo]}).
      split; [done|]. split; [exact Hnames'|]. split; [|split].
      * intros s. rewrite fmap_app, elem_of_app, elem_of_union, Hsame. simpl.
        by rewrite list_elem_of_singleton, elem_of_singleton.
      * rewrite fmap_app. apply NoDup_app. split; [done|]. split.
        -- intros s Hs ->%list_elem_of_singleton. by apply Hnew, Hsame.
        -- apply NoDup_singleton.
      * apply Forall_app. split; [done|]. constructor; [|constructor].
        exists fo. split; [|done]. apply elem_of_app. right.
        by apply list_elem_of_singleton.
    + exists files, (names ∪ {[sane fo]}).
      split; [done|]. split; [exact Hnames'|]. split; [|done].
      intros s. rewrite Hsame, elem_of_union, elem_of_singleton. split.
      * by left.
      * intros [Hs| ->]; done.
  - apply str_truthy_false in Hname.
    exists files, names. split; [done|]. split; [|done].
    intros s. rewrite Hnames. split.
    + intros (fo' & Hin & Hn & Hs). exists fo'.
      split; [apply elem_of_app; by left|done].
    + intros (fo' & [Hin| ->%list_elem_of_singleton]%elem_of_app & Hn & Hs).
      * by exists fo'.
      * done.
Qed.

(** The descriptors that [get_files] returns have pairwise distinct
    sanitized names, and each is [get_file] of an entry submitted under the
    asked name with a non-empty file name. *)
Theorem get_files_distinct (request_files : list (string * FileStorage.t))
    (name : string) :
  NoDup (FileInfo.secure_filename <$> get_files request_files name)
  ∧ ∀ info, info ∈ get_files request_files name →
      ∃ fo, (name, fo) ∈ request_files
            ∧ FileStorage.filename fo ≠ ""
            ∧ info = get_file fo.
Proof.
  unfold get_files.
  destruct (get_files_loop_names (getlist request_files name))
    as (files & names & -> & _ & _ & Hnd & Hfrom).
  split; [exact Hnd|]. simpl. intros info Hin.
  rewrite Forall_forall in Hfrom.
  destruct (Hfrom info Hin) as (fo & Hfo & Hn & ->).
  exists fo. split; [|done]. unfold getlist in Hfo.
  apply list_elem_of_fmap in Hfo as ([k fo'] & -> & [Hk Hp]%list_elem_of_filter).
  simpl in *. by subst k.
Qed.

(** No sanitized name is lost: every entry submitted under the name with a
    non-empty file name has its sanitized name among the descriptors
    returned. *)
Theorem get_files_covers (request_files : list (string * FileStorage.t))
    (name : string) (fo : FileStorage.t) :
  (name, fo) ∈ request_files →
  FileStorage.filename fo ≠ "" →
  ∃ info, info ∈ get_files request_files name
          ∧ FileInfo.secure_filename info = sane fo.
Proof.
  intros Hin Hname. unfold get_files.
  destruct (get_files_loop_names (getlist request_files name))
    as (files & names & -> & Hnames & Hsame & _ & _).
  simpl.
  assert (sane fo ∈ FileInfo.secure_filename <$> files) as Hs.
  { apply Hsame, Hnames. exists fo. split; [|done].
    unfold getlist. apply list_elem_of_fmap. exists (name, fo).
    split; [done|]. by apply list_elem_of_filter. }
  apply list_elem_of_fmap in Hs as (info & Heq & Hinfo). by exists info.
Qed.

Lemma getlist_filter_blank (request_files : list (string * FileStorage.t))
    (name : string) :
  getlist (filter (λ p, FileStorage.filename p.2 ≠ "") request_files) name
  = filter (λ fo, FileStorage.filename fo ≠ "") (getlist request_files name).
Proof.
  unfold getlist. induction request_files as [|[k fo] rest IH]; [done|].
  destruct (decide (FileStorage.filename fo ≠ "")) as [Hn|Hn];
    destruct (decide (k = name)) as [Hk|Hk].
  - rewrite (filter_cons_True (λ p, FileStorage.filename p.2 ≠ "")) by done.
    rewrite !(filter_cons_True (λ p, p.1 = name)) by done.
    rewrite !fmap_cons. simpl.
    rewrite (filter_cons_True (λ fo, FileStorage.filename fo ≠ "")) by done.
    by rewrite IH.
  - rewrite (filter_cons_True (λ p, FileStorage.filename p.2 ≠ "")) by done.
    rewrite !(filter_cons_False (λ p, p.1 = name)) by done.
    exact IH.
  - rewrite (filter_cons_False (λ p, FileStorage.filename p.2 ≠ "")) by done.
    rewrite (filter_cons_True (λ p, p.1 = name)) by done.
    rewrite fmap_cons. simpl.
    rewrite (filter_cons_False (λ fo, FileStorage.filename fo ≠ "")) by done.
    exact IH.
  - rewrite (filter_cons_False (λ p, FileStorage.filename p.2 ≠ "")) by done.
    rewrite (filter_cons_False (λ p, p.1 = name)) by done.
    exact IH.
Qed.

Lemma get_files_loop_skip_blank (l : list FileStorage.t)
    (st : list FileInfo.t * gset string) :
  foldl get_files_step st (filter (λ fo, FileStorage.filename fo ≠ "") l)
  = foldl get_files_step st l.
Proof.
  revert st. induction l as [|fo l IH]; intros st; [done|].
  rewrite filter_cons. simpl.
  destruct (decide (FileStorage.filename fo ≠ "")) as [Hn|Hn]; simpl.
  - apply IH.
  - rewrite IH. f_equal. unfold get_files_step. destruct st as [files names].
    apply dec_stable in Hn. apply str_truthy_false in Hn.
    by rewrite file_test, Hn.
Qed.

(** Entries without a file name contribute nothing: removing them from the
    request leaves the result of [get_files] unchanged, and the result is
    empty exactly when every entry under the name lacks a file name. *)
Theorem get_files_ignores_blank
    (request_files : list (string * FileStorage.t)) (name : string) :
  get_files request_files name
  = get_files (filter (λ p, FileStorage.filename p.2 ≠ "") request_files) name
  ∧ (get_files request_files name = []
     ↔ ∀ fo, (name, fo) ∈ request_files → FileStorage.filename fo = "").
Proof.
  assert (get_files request_files name
          = get_files (filter (λ p, FileStorage.filename p.2 ≠ "")
                         request_files) name) as Hskip.
  { unfold get_files.
    by rewrite getlist_filter_blank, get_files_loop_skip_blank. }
  split; [exact Hskip|]. split.
  - intros Hnil fo Hin.
    destruct (decide (FileStorage.filename fo = "")) as [|Hname]; [done|].
    exfalso. unfold get_files in Hnil.
    destruct (get_files_loop_names (getlist request_files name))
      as (files & names & Hrun & Hnames & Hsame & _ & _).
    rewrite Hrun in Hnil. simpl in Hnil. subst files.
    assert (sane fo ∈ names) as Hs.
    { apply Hnames. exists fo. split; [|done].
      unfold getlist. apply list_elem_of_fmap. exists (name, fo).
      split; [done|]. by apply list_elem_of_filter. }
    apply Hsame in Hs. by apply not_elem_of_nil in Hs.
  - intros Hblank. rewrite Hskip. unfold get_files.
    rewrite getlist_filter_blank.
    assert (filter (λ fo, FileStorage.filename fo ≠ "")
              (getlist request_files name) = []) as ->; [|done].
    apply elem_of_nil_inv. intros fo [Hname Hfo]%list_elem_of_filter.
    apply Hname, Hblank. unfold getlist in Hfo.
    apply list_elem_of_fmap in Hfo
      as ([k fo'] & -> & [Hk Hp]%list_elem_of_filter).
    simpl in *. by subst k.
Qed.

Section parse_files_more.
Context (request_files : list (string * FileStorage.t)) (self : form).

Lemma parse_files_lookup (names : list string) (k : string) :
  parse_files request_files self names !! k
  = if decide (k ∈ names ++ bound_file_fields self
               ∧ get_files request_files k ≠ [])
    then Some (get_files request_files k) else None.
Proof.
  unfold parse_files, bound_file_fields.
  by rewrite foldl_put_files_fields, <- foldl_app, foldl_put_files_lookup,
       lookup_empty.
Qed.

(** Requesting two lists of names at once gives the union of the results
    of requesting each. *)
Theorem parse_files_app (names1 names2 : list string) :
  parse_files request_files self (names1 ++ names2)
  = parse_files request_files self names1
    ∪ parse_files request_files self names2.
Proof.
  apply map_eq. intros k. rewrite lookup_union, !parse_files_lookup.
  repeat case_decide; simpl; try done; exfalso;
    rewrite ?elem_of_app in *; tauto.
Qed.

(** The result of [parse_files] depends on the requested names as a set:
    neither their order nor repetitions matter. *)
Theorem parse_files_same_names (names1 names2 : list string) :
  (∀ k, k ∈ names1 ↔ k ∈ names2) →
  parse_files request_files self names1
  = parse_files request_files self names2.
Proof.
  intros Hsame. apply map_eq. intros k. rewrite !parse_files_lookup.
  apply decide_ext. rewrite !elem_of_app, Hsame. done.
Qed.
End parse_files_more.

End files_more.

Lemma get_files_covers_witness :
  ∃ info, info ∈ get_files (ext := sample_externals)
                   [("avatar", FileStorage.mk "" 0);
                    ("avatar", FileStorage.mk "my photo.png" 1);
                    ("avatar", FileStorage.mk "my_photo.png" 2)] "avatar"
          ∧ FileInfo.secure_filename info = "my_photo.png".
Proof.
  apply (get_files_covers (ext := sample_externals) _ "avatar"
           (FileStorage.mk "my_photo.png" 2)).
  - do 2 apply list_elem_of_further. apply list_elem_of_here.
  - discriminate.
Defined.

Lemma parse_files_same_names_witness :
  parse_files (ext := sample_externals)
    [("avatar", FileStorage.mk "a.png" 1); ("cv", FileStorage.mk "cv.pdf" 2)]
    sample_form ["cv"; "avatar"; "cv"]
  = parse_files (ext := sample_externals)
      [("avatar", FileStorage.mk "a.png" 1); ("cv", FileStorage.mk "cv.pdf" 2)]
      sample_form ["avatar"; "cv"].
Proof.
  apply (parse_files_same_names (ext := sample_externals)).
  intros k. rewrite !elem_of_cons, !elem_of_nil. tauto.
Defined.

(** ** Attribute resolver, continued *)

Lemma declared_names_elem (attr : string) (walked rest : list klass)
    (h : heap) (x : string) :
  Forall (λ kls, k_name kls ≠ "ToppingForm") walked →
  (rest = [] ∨ ∃ base rest', rest = base :: rest'
                             ∧ k_name base = "ToppingForm") →
  x ∈ declared_names attr (walked ++ rest) h
  ↔ ∃ kls ℓ l, kls ∈ walked ∧ k_lists kls !! attr = Some ℓ
               ∧ h !! ℓ = Some l ∧ x ∈ l.
Proof.
  intros Hwalk Hrest. induction Hwalk as [|kls walked Hname _ IH].
  - simpl. split.
    + destruct Hrest as [->|(base & rest' & -> & Hbase)]; simpl.
      * by intros ?%not_elem_of_nil.
      * rewrite Hbase. simpl. by intros ?%not_elem_of_nil.
    + intros (kls & ℓ & l & Hin & _). by apply not_elem_of_nil in Hin.
  - simpl. apply String.eqb_neq in Hname. rewrite Hname.
    rewrite elem_of_app, IH. split.
    + intros [Hx|(k & ℓ & l & Hk & Hℓ & Hl & Hx)].
      * destruct (k_lists kls !! attr) as [ℓ|] eqn:Hℓ;
          [|by apply not_elem_of_nil in Hx].
        destruct (h !! ℓ) as [l|] eqn:Hl; [|by apply not_elem_of_nil in Hx].
        exists kls, ℓ, l. split; [apply list_elem_of_here|done].
      * exists k, ℓ, l. split; [by apply list_elem_of_further|done].
    + intros (k & ℓ & l & [->|Hk]%elem_of_cons & Hℓ & Hl & Hx).
      * left. by rewrite Hℓ, Hl.
      * right. by exists k, ℓ, l.
Qed.

(** [get_attrs] with [is_list] true returns a new list object: its
    location is not one of the heap before, and the objects of the heap
    before are unchanged.  The list has no duplicates, and it holds exactly
    the names that the classes before the one named [ToppingForm] declare
    under the attribute. *)
Theorem get_attrs_list_union (self : form) (kind : string) (h : heap)
    (walked rest : list klass) :
  heap_wf self h →
  mro self = walked ++ rest →
  Forall (λ kls, k_name kls ≠ "ToppingForm") walked →
  (rest = [] ∨ ∃ base rest', rest = base :: rest'
                             ∧ k_name base = "ToppingForm") →
  ∃ (ℓ : loc) h' l,
    get_attrs self kind true h = Ok (ℓ, h')
    ∧ h !! ℓ = None
    ∧ (∀ ℓ', ℓ' ∈ dom h → h' !! ℓ' = h !! ℓ')
    ∧ h' !! ℓ = Some l
    ∧ NoDup l
    ∧ ∀ x, x ∈ l ↔ ∃ kls ℓ' l', kls ∈ walked
                                ∧ k_lists kls !! attr_name kind = Some ℓ'
                                ∧ h !! ℓ' = Some l' ∧ x ∈ l'.
Proof.
  intros Hwf Hmro Hwalk Hrest.
  destruct (get_attrs_list_spec self kind h Hwf)
    as (ℓ & h' & Hrun & Hsub & Hfresh & Hl).
  exists ℓ, h', (elements (list_to_set
     (declared_names (attr_name kind) (mro self) h) : gset string)).
  split; [exact Hrun|]. split; [exact Hfresh|]. split; [|split; [exact Hl|split]].
  - intros ℓ' [l' Hl']%elem_of_dom. rewrite Hl'.
    by apply (lookup_weaken h h').
  - apply NoDup_elements.
  - intros x. rewrite elem_of_elements, elem_of_list_to_set, Hmro.
    by apply declared_names_elem.
Qed.

Lemma get_attrs_list_union_witness :
  ∃ (ℓ : loc) h' l,
    get_attrs sample_form "nostrips" true sample_heap = Ok (ℓ, h')
    ∧ sample_heap !! ℓ = None
    ∧ h' !! ℓ = Some l
    ∧ NoDup l.
Proof.
  destruct (get_attrs_list_union sample_form "nostrips" sample_heap
              [sample_class]
              [sample_base; Klass "FlaskForm" ∅ ∅; Klass "object" ∅ ∅]
              sample_heap_wf eq_refl)
    as (ℓ & h' & l & Hrun & Hfresh & _ & Hl & Hnd & _).
  - repeat constructor. discriminate.
  - right. by exists sample_base, [Klass "FlaskForm" ∅ ∅; Klass "object" ∅ ∅].
  - by exists ℓ, h', l.
Defined.

(** ** Form normaliser, continued *)

Lemma field_value_str (lo up ns : list string) (f : Field.t) (s : string) :
  Field.data f = VStr s →
  field_value lo up ns f
  = Ok (VStr (let t := if decide ((Field.name f ∉ ns)
                                  ∧ Field.type f ≠ "PasswordField")
                       then strip s else s in
              if decide (Field.name f ∈ lo) then lower t
              else if decide (Field.name f ∈ up) then upper t else t)).
Proof.
  intros Hd. unfold field_value. rewrite Hd.
  assert (bool_decide (Field.name f ∉ ns)
            && negb (Field.type f =? "PasswordField")%string
          = bool_decide ((Field.name f ∉ ns)
                         ∧ Field.type f ≠ "PasswordField")) as ->.
  { destruct (String.eqb_spec (Field.type f) "PasswordField") as [Ht|Ht];
      destruct (decide (Field.name f ∉ ns)) as [Hn|Hn].
    - rewrite (bool_decide_eq_true_2 _ Hn). simpl. symmetry.
      apply bool_decide_eq_false_2. tauto.
    - rewrite (bool_decide_eq_false_2 _ Hn). simpl. symmetry.
      apply bool_decide_eq_false_2. tauto.
    - rewrite (bool_decide_eq_true_2 _ Hn). simpl. symmetry.
      by apply bool_decide_eq_true_2.
    - rewrite (bool_decide_eq_false_2 _ Hn). simpl. symmetry.
      apply bool_decide_eq_false_2. tauto. }
  rewrite !bool_decide_decide.
  destruct (decide ((Field.name f ∉ ns) ∧ Field.type f ≠ "PasswordField"));
    simpl; destruct (decide (Field.name f ∈ lo)); simpl; try done;
    by destruct (decide (Field.name f ∈ up)).
Qed.

Lemma field_value_plain (lo up ns : list string) (f : Field.t) :
  (∀ s, Field.data f ≠ VStr s) →
  Field.name f ∉ lo → Field.name f ∉ up →
  field_value lo up ns f = Ok (Field.data f).
Proof.
  intros Hns Hlo Hup. unfold field_value.
  rewrite (bool_decide_eq_false_2 _ Hlo), (bool_decide_eq_false_2 _ Hup).
  destruct (Field.data f) as [| | |s| | | |]; try by destruct (_ && _).
  by destruct (Hns s).
Qed.

Lemma field_value_raises (lo up ns : list string) (f : Field.t) :
  Field.name f ∈ lo ∨ Field.name f ∈ up →
  Field.data f ≠ VNone → (∀ s, Field.data f ≠ VStr s) →
  field_value lo up ns f = Raise AttributeError.
Proof.
  intros Hcase Hnone Hns. unfold field_value.
  assert ((if bool_decide (Field.name f ∉ ns)
              && negb (Field.type f =? "PasswordField")%string
           then strip_if_str (Field.data f) else Field.data f)
          = Field.data f) as ->.
  { destruct (_ && _); [|done].
    destruct (Field.data f) as [| | |s| | | |]; try done. by destruct (Hns s). }
  destruct (Field.data f) as [| | |s| | | |]; try done;
    try (by destruct (Hns s));
    destruct Hcase as [Hlo|Hup];
    try (by rewrite (bool_decide_eq_true_2 _ Hlo));
    destruct (bool_decide (Field.name f ∈ lo)); try done;
    by rewrite (bool_decide_eq_true_2 _ Hup).
Qed.

Lemma field_value_exn (lo up ns : list string) (f : Field.t) (e : exn) :
  field_value lo up ns f = Raise e → e = AttributeError.
Proof.
  unfold field_value.
  destruct (if _ && _ then _ else _) as [| | |s| | | |]; try done;
    destruct (bool_decide (Field.name f ∈ lo)); simpl; try congruence;
    destruct (bool_decide (Field.name f ∈ up)); simpl; congruence.
Qed.

Lemma normalize_fields_raises (lo up ns ex : list string)
    (al : gmap string string) (dct : gmap string value)
    (fs : list Field.t) (f : Field.t) (e : exn) :
  f ∈ fs → field_skipped ex f = false →
  field_value lo up ns f = Raise e →
  normalize_fields lo up ns ex al dct fs = Raise AttributeError.
Proof.
  intros Hin Hkept Hraise. revert dct.
  induction fs as [|g fs IH]; intros dct; [by apply not_elem_of_nil in Hin|].
  simpl. apply elem_of_cons in Hin as [<-|Hin].
  - rewrite Hkept, Hraise. simpl. f_equal. by apply field_value_exn in Hraise.
  - destruct (field_skipped ex g); [by apply IH|].
    destruct (field_value lo up ns g) as [v|e'] eqn:Hg; simpl; [by apply IH|].
    f_equal. by apply field_value_exn in Hg.
Qed.

Lemma parse_form_values (ctx : context) (self : form)
    (box_wrap use_timestamps : bool) (h : heap) :
  heap_wf self h → case_ready ctx self h →
  ∃ r h', parse_form ctx self box_wrap use_timestamps h = Ok (r, h')
    ∧ ∀ pre f post,
        fields self = pre ++ f :: post →
        ¬ skipped ctx self h f →
        (∀ g, g ∈ post → ¬ skipped ctx self h g →
              output_key self g ≠ output_key self f) →
        (use_timestamps = true →
         output_key self f ≠ "created_at"
         ∧ output_key self f ≠ "updated_at") →
        ∃ v, field_value (resolved self "lowers" h) (resolved self "uppers" h)
               (resolved self "nostrips" h) f = Ok v
             ∧ entries r !! output_key self f = Some v.
Proof.
  intros Hwf Hty.
  destruct (parse_form_spec ctx self box_wrap use_timestamps h Hwf)
    as (h1 & _ & Hspec).
  destruct (normalize_fields_total
              (resolved self "lowers" h) (resolved self "uppers" h)
              (resolved self "nostrips" h)
              (resolved self "excludes" h ++ [csrf_name ctx])
              (resolved_aliases self) ∅ (fields self)) as [dct Hn].
  { intros g Hg Hk%field_kept_spec. apply field_value_returns. eauto. }
  rewrite Hn in Hspec. eexists _, h1. split; [exact Hspec|]. simpl.
  intros pre f post Hfs Hkept%field_kept_spec Hlast Hts.
  rewrite Hfs in Hn.
  destruct (normalize_fields_at _ _ _ _ _ _ _ _ _ _ Hn Hkept)
    as (v & Hv & _ & Hstored).
  exists v. split; [exact Hv|]. rewrite stamp_lookup by done.
  apply Hstored. intros g Hg Hk%field_kept_spec. by apply Hlast.
Qed.

(** The entry of a kept field that holds a string: the string is trimmed
    unless the field is listed in [nostrips] or is a password field, then
    lowercased if the field is listed in [lowers], else uppercased if it is
    listed in [uppers] (lowercasing wins when it is listed in both).  The
    entry is read back unless a later field or a timestamp is stored under
    the same key. *)
Theorem parse_form_string_value (ctx : context) (self : form)
    (box_wrap use_timestamps : bool) (h : heap)
    (pre post : list Field.t) (f : Field.t) (s : string) :
  heap_wf self h → case_ready ctx self h →
  fields self = pre ++ f :: post →
  ¬ skipped ctx self h f →
  Field.data f = VStr s →
  (∀ g, g ∈ post → ¬ skipped ctx self h g →
        output_key self g ≠ output_key self f) →
  (use_timestamps = true →
   output_key self f ≠ "created_at" ∧ output_key self f ≠ "updated_at") →
  ∃ r h', parse_form ctx self box_wrap use_timestamps h = Ok (r, h')
    ∧ entries r !! output_key self f
      = Some (VStr
          (let t := if decide ((Field.name f ∉ resolved self "nostrips" h)
                               ∧ Field.type f ≠ "PasswordField")
                    then strip s else s in
           if decide (Field.name f ∈ resolved self "lowers" h) then lower t
           else if decide (Field.name f ∈ resolved self "uppers" h)
                then upper t else t)).
Proof.
  intros Hwf Hty Hfs Hkept Hdata Hlast Hts.
  destruct (parse_form_values ctx self box_wrap use_timestamps h Hwf Hty)
    as (r & h' & Hrun & Hval).
  exists r, h'. split; [exact Hrun|].
  destruct (Hval pre f post Hfs Hkept Hlast Hts) as (v & Hv & ->).
  rewrite (field_value_str _ _ _ _ _ Hdata) in Hv. by injection Hv as <-.
Qed.

(** A kept field that is not listed for a case change and holds a value
    other than a string (a number, a boolean, a list, nothing) is stored
    with that value unchanged. *)
Theorem parse_form_plain_value (ctx : context) (self : form)
    (box_wrap use_timestamps : bool) (h : heap)
    (pre post : list Field.t) (f : Field.t) :
  heap_wf self h → case_ready ctx self h →
  fields self = pre ++ f :: post →
  ¬ skipped ctx self h f →
  (∀ s, Field.data f ≠ VStr s) →
  Field.name f ∉ resolved self "lowers" h →
  Field.name f ∉ resolved self "uppers" h →
  (∀ g, g ∈ post → ¬ skipped ctx self h g →
        output_key self g ≠ output_key self f) →
  (use_timestamps = true →
   output_key self f ≠ "created_at" ∧ output_key self f ≠ "updated_at") →
  ∃ r h', parse_form ctx self box_wrap use_timestamps h = Ok (r, h')
    ∧ entries r !! output_key self f = Some (Field.data f).
Proof.
  intros Hwf Hty Hfs Hkept Hdata Hlo Hup Hlast Hts.
  destruct (parse_form_values ctx self box_wrap use_timestamps h Hwf Hty)
    as (r & h' & Hrun & Hval).
  exists r, h'. split; [exact Hrun|].
  destruct (Hval pre f post Hfs Hkept Hlast Hts) as (v & Hv & ->).
  rewrite (field_value_plain _ _ _ _ Hdata Hlo Hup) in Hv.
  by injection Hv as <-.
Qed.

(** A kept field listed in [lowers] or [uppers] that holds a value that is
    neither absent nor a string makes [parse_form] fail with the
    attribute-not-found error: the case change is called on the value. *)
Theorem parse_form_case_of_non_string (ctx : context) (self : form)
    (box_wrap use_timestamps : bool) (h : heap) (f : Field.t) :
  heap_wf self h →
  f ∈ fields self →
  ¬ skipped ctx self h f →
  Field.name f ∈ resolved self "lowers" h
  ∨ Field.name f ∈ resolved self "uppers" h →
  Field.data f ≠ VNone → (∀ s, Field.data f ≠ VStr s) →
  parse_form ctx self box_wrap use_timestamps h = Raise AttributeError.
Proof.
  intros Hwf Hin Hkept%field_kept_spec Hcase Hnone Hns.
  destruct (parse_form_spec ctx self box_wrap use_timestamps h Hwf)
    as (h1 & _ & ->).
  by rewrite (normalize_fields_raises _ _ _ _ _ _ _ f AttributeError Hin Hkept
                (field_value_raises _ _ _ _ Hcase Hnone Hns)).
Qed.

(** With [use_timestamps] the call returns the mapping of the call without
    it, updated with [created_at] and [updated_at], both set to the one
    clock reading; nothing else changes. *)
Theorem parse_form_timestamps (ctx : context) (self : form)
    (box_wrap : bool) (h h' : heap) (r : record) :
  heap_wf self h →
  parse_form ctx self box_wrap false h = Ok (r, h') →
  ∃ r' h'', parse_form ctx self box_wrap true h = Ok (r', h'')
    ∧ entries r' = <["updated_at" := VDateTime (now ctx)]>
                     (<["created_at" := VDateTime (now ctx)]> (entries r))
    ∧ entries r' !! "created_at" = Some (VDateTime (now ctx))
    ∧ entries r' !! "updated_at" = Some (VDateTime (now ctx))
    ∧ boxed r' = boxed r.
Proof.
  intros Hwf Hrun.
  destruct (parse_form_spec ctx self box_wrap false h Hwf) as (h1 & _ & Hspec).
  destruct (parse_form_spec ctx self box_wrap true h Hwf) as (h2 & _ & Hspec').
  rewrite Hrun in Hspec.
  destruct (normalize_fields _ _ _ _ _ _ _) as [dct|e]; [|done].
  injection Hspec as -> ->. eexists _, h2. split; [exact Hspec'|]. simpl.
  split; [done|]. split; [|split; [|done]].
  - by rewrite lookup_insert_ne, lookup_insert_eq.
  - by rewrite lookup_insert_eq.
Qed.

(** The keys of the returned mapping are exactly the output keys of the
    kept fields, together with [created_at] and [updated_at] when
    timestamps are asked for. *)
Theorem parse_form_keys (ctx : context) (self : form)
    (box_wrap use_timestamps : bool) (h h' : heap) (r : record)
    (key : string) :
  heap_wf self h →
  parse_form ctx self box_wrap use_timestamps h = Ok (r, h') →
  is_Some (entries r !! key)
  ↔ (∃ f, f ∈ fields self ∧ ¬ skipped ctx self h f
          ∧ output_key self f = key)
    ∨ (use_timestamps = true ∧ (key = "created_at" ∨ key = "updated_at")).
Proof.
  intros Hwf Hrun.
  destruct (parse_form_spec ctx self box_wrap use_timestamps h Hwf)
    as (h1 & _ & Hspec).
  rewrite Hrun in Hspec.
  destruct (normalize_fields _ _ _ _ _ _ _) as [dct|e] eqn:Hn; [|done].
  injection Hspec as -> ->. simpl. split.
  - intros [v [Hv|Hts]%stamp_lookup_Some]; [|by right].
    destruct (normalize_fields_provenance _ _ _ _ _ _ _ _ _ _ Hn Hv)
      as [Hemp|(f & Hf & Hk%field_kept_spec & Hout)].
    + by rewrite lookup_empty in Hemp.
    + left. by exists f.
  - intros [(f & Hf & Hk%field_kept_spec & <-)|[-> Hkey]].
    + apply stamp_is_Some.
      apply list_elem_of_split in Hf as (pre & post & Hfs).
      rewrite Hfs in Hn.
      by destruct (normalize_fields_at _ _ _ _ _ _ _ _ _ _ Hn Hk)
        as (v & _ & Hsome & _).
    + unfold stamp. destruct Hkey as [-> | ->].
      * rewrite lookup_insert_ne, lookup_insert_eq by done. by eexists.
      * rewrite lookup_insert_eq. by eexists.
Qed.

Lemma check_field_all_checks_witness :
  check_field (ext := sample_externals) "" "" VNone
    [("email", "ne", VStr "")] "This field is required"
    sample_signup sample_confirm
  = Raise (ValidationError "This field is required").
Proof.
  apply (check_field_all_checks (ext := sample_externals)).
  - reflexivity.
  - repeat constructor. by exists 1.
  - repeat constructor.
Defined.

Lemma check_field_idle_check_witness :
  check_field (ext := sample_externals) "email" "" VNone []
    "This field is required" sample_signup sample_confirm
  = Ok tt.
Proof.
  apply (check_field_idle_check (ext := sample_externals)).
  - repeat constructor. by exists 0.
  - constructor. exists sample_email. split; [reflexivity|by left].
Defined.

Lemma check_field_missing_dependency_witness :
  check_field (ext := sample_externals) "" "" VNone
    [("email", "ne", VStr ""); ("phone", "ne", VStr "")]
    "This field is required" sample_signup sample_confirm
  = Raise AttributeError.
Proof.
  apply (check_field_missing_dependency (ext := sample_externals)
           "" "" VNone _ _ _ _ [("email", "ne", VStr "")] []
           "phone" "ne" (VStr "")).
  - reflexivity.
  - reflexivity.
  - repeat constructor. by exists 1.
  - intros f Hf.
    repeat (apply elem_of_cons in Hf as [->|Hf]; [discriminate|]).
    destruct (not_elem_of_nil f Hf).
Defined.

Lemma sample_case_ready :
  case_ready sample_context sample_form sample_heap.
Proof.
  intros g Hg Hkept _.
  repeat (apply elem_of_cons in Hg as [->|Hg];
          [first [ by left | right; by eexists
                 | exfalso; apply Hkept; right; right;
                   by apply (bool_decide_unpack _) ] |]).
  destruct (not_elem_of_nil g Hg).
Qed.

Lemma sample_tail_skipped (g : Field.t) :
  g ∈ drop 4 (fields sample_form) →
  skipped sample_context sample_form sample_heap g.
Proof.
  intros Hg.
  repeat (apply elem_of_cons in Hg as [->|Hg];
          [by apply (bool_decide_unpack _)|]).
  destruct (not_elem_of_nil g Hg).
Qed.

Lemma parse_form_string_value_witness :
  ∃ r h', parse_form sample_context sample_form false false sample_heap
          = Ok (r, h')
    ∧ entries r !! "email" = Some (VStr "a@b.com").
Proof.
  destruct (parse_form_string_value sample_context sample_form false false
              sample_heap (take 1 (fields sample_form))
              (drop 2 (fields sample_form))
              (Field.mk "email" "StringField" (VStr "A@B.com")) "A@B.com"
              sample_heap_wf sample_case_ready eq_refl)
    as (r & h' & Hrun & Hval).
  - apply (bool_decide_unpack _). vm_compute. reflexivity.
  - reflexivity.
  - intros g Hg _ Heq.
    repeat (apply elem_of_cons in Hg as [->|Hg];
            [vm_compute in Heq; discriminate Heq|]).
    destruct (not_elem_of_nil g Hg).
  - discriminate.
  - exists r, h'. split; [exact Hrun|].
    assert (output_key sample_form
              (Field.mk "email" "StringField" (VStr "A@B.com")) = "email")
      as Hkey by (vm_compute; reflexivity).
    rewrite Hkey in Hval. rewrite Hval. vm_compute. reflexivity.
Defined.

Lemma parse_form_plain_value_witness :
  ∃ r h', parse_form sample_context sample_form false false sample_heap
          = Ok (r, h')
    ∧ entries r !! "age" = Some VNone.
Proof.
  destruct (parse_form_plain_value sample_context sample_form false false
              sample_heap (take 3 (fields sample_form))
              (drop 4 (fields sample_form)) sample_age
              sample_heap_wf sample_case_ready eq_refl)
    as (r & h' & Hrun & Hval).
  - apply (bool_decide_unpack _). vm_compute. reflexivity.
  - discriminate.
  - apply (bool_decide_unpack _). vm_compute. reflexivity.
  - apply (bool_decide_unpack _). vm_compute. reflexivity.
  - intros g Hg Hkept. destruct Hkept. by apply sample_tail_skipped.
  - discriminate.
  - exists r, h'. split; [exact Hrun|].
    assert (output_key sample_form sample_age = "age")
      as Hkey by (vm_compute; reflexivity).
    by rewrite Hkey in Hval.
Defined.

Lemma sample_census_heap_wf : heap_wf sample_census_form sample_census_heap.
Proof.
  intros kls attr ℓ Hk Hℓ.
  assert (ℓ ∈ [1; 2; 3; 4; 5]%positive) as Hin.
  { repeat (apply elem_of_cons in Hk as [->|Hk]);
      [simpl in Hℓ..|by apply not_elem_of_nil in Hk];
      repeat (apply lookup_insert_Some in Hℓ as [[_ <-]|[_ Hℓ]];
              [by apply (bool_decide_unpack _)|]);
      first [ by rewrite lookup_empty in Hℓ
            | apply lookup_singleton_Some in Hℓ as [_ <-];
              by apply (bool_decide_unpack _) ]. }
  apply elem_of_dom.
  repeat (apply elem_of_cons in Hin as [->|Hin]; [by eexists|]).
  by apply not_elem_of_nil in Hin.
Qed.

Lemma parse_form_case_of_non_string_witness :
  parse_form sample_context sample_census_form false false sample_census_heap
  = Raise AttributeError.
Proof.
  apply (parse_form_case_of_non_string sample_context sample_census_form
           false false sample_census_heap sample_census_age
           sample_census_heap_wf).
  - apply list_elem_of_here.
  - apply (bool_decide_unpack _). vm_compute. reflexivity.
  - left. apply (bool_decide_unpack _). vm_compute. reflexivity.
  - discriminate.
  - discriminate.
Defined.

Lemma parse_form_timestamps_witness :
  ∃ r r' h' h'',
    parse_form sample_context sample_form false false sample_heap = Ok (r, h')
    ∧ parse_form sample_context sample_form false true sample_heap
      = Ok (r', h'')
    ∧ entries r' !! "created_at" = entries r' !! "updated_at".
Proof.
  destruct (parse_form sample_context sample_form false false sample_heap)
    as [[r h']|e] eqn:Hrun.
  - destruct (parse_form_timestamps sample_context sample_form false
                sample_heap h' r sample_heap_wf Hrun)
      as (r' & h'' & Hrun' & _ & Hc & Hu & _).
    exists r, r', h', h''. split; [reflexivity|]. split; [exact Hrun'|].
    by rewrite Hc, Hu.
  - vm_compute in Hrun. discriminate Hrun.
Defined.

Lemma parse_form_keys_witness :
  ∃ r h', parse_form sample_context sample_form false false sample_heap
          = Ok (r, h')
    ∧ is_Some (entries r !! "full_name")
    ∧ ¬ is_Some (entries r !! "name").
Proof.
  destruct (parse_form sample_context sample_form false false sample_heap)
    as [[r h']|e] eqn:Hrun.
  - exists r, h'. split; [reflexivity|]. split.
    + apply (parse_form_keys sample_context sample_form false false
               sample_heap h' r "full_name" sample_heap_wf Hrun).
      left. exists (Field.mk "name" "StringField" (VStr " Bob ")).
      split; [apply list_elem_of_here|]. split; [|reflexivity].
      apply (bool_decide_unpack _). vm_compute. reflexivity.
    + intros [(g & Hg & Hkept & Hkey)|[Hts _]]%(parse_form_keys
          sample_context sample_form false false sample_heap h' r "name"
          sample_heap_wf Hrun); [|discriminate Hts].
      clear Hkept.
      repeat (apply elem_of_cons in Hg as [->|Hg];
              [vm_compute in Hkey; discriminate Hkey|]).
      destruct (not_elem_of_nil g Hg).
  - vm_compute in Hrun. discriminate Hrun.
Defined.
